(** * grpc-haclient: the connection registry and its supervisor

    A shallow embedding of [connmgr.go] (the [clientConnManager] registry) and
    of the [haclient] supervisor built on it, together with the properties
    the design document states about them.

    Conventions of the embedding:
    - a [*grpc.ClientConn] is an optional address, [None] being Go's [nil];
    - [map[string]*grpc.ClientConn] is a [gmap string ptr]: a key may be
      bound to [nil], which Go distinguishes from an absent key only in
      [range] loops;
    - [int32] is a [Z] kept in range by [wrap32]; Go's [%] is the truncating
      remainder [Z.rem];
    - methods are computations in a state monad over [world]; a Go run-time
      panic is the outcome [Panic];
    - calls the code makes on connections and collaborators ([Close], dial,
      readiness probe, [cancel], [go]) are recorded, in program order, in the
      [trace] of the world. *)

From Stdlib Require Import ZArith String List Lia.
From stdpp Require Import base gmap strings list sorting fin_maps.

Local Open Scope Z_scope.

(** ** Machine integers *)

Module Int32.

Definition min_int : Z := - 2 ^ 31.
Definition max_int : Z := 2 ^ 31 - 1.

(** Two's complement wrap-around into [-2^31, 2^31). *)
Definition wrap32 (z : Z) : Z := (z + 2 ^ 31) mod 2 ^ 32 - 2 ^ 31.

Definition in_range (z : Z) : Prop := min_int <= z <= max_int.

(** [atomic.AddInt32(&x, delta)] returns the new, wrapped value. *)
Definition add (x delta : Z) : Z := wrap32 (x + delta).

(** Go's [%] on signed integers truncates toward zero. *)
Definition rem (x y : Z) : Z := Z.rem x y.


Lemma wrap32_id z : in_range z -> wrap32 z = z.
Proof.
  unfold in_range, wrap32, min_int, max_int. intros Hz.
  rewrite Z.mod_small; lia.
Qed.

Lemma add_no_overflow x : in_range x -> x < max_int -> add x 1 = x + 1.
Proof.
  unfold add, in_range, min_int, max_int. intros Hx Hlt.
  apply wrap32_id. unfold in_range, min_int, max_int. lia.
Qed.


End Int32.

(** ** Data model *)

(** The address of a [grpc.ClientConn] object. *)
Definition ClientConn := positive.

(** [*grpc.ClientConn]; [None] is [nil]. *)
Definition ptr := option ClientConn.

(** What the code does to the outside world, in program order. *)
Inductive event :=
| EvClose (c : ClientConn)                 (* cc.Close() *)
| EvStore (endpoint : string) (cc : ptr)   (* m.connSet[endpoint] = cc *)
| EvDial (endpoint : string) (r : ptr)     (* c.dial(endpoint) *)
| EvProbe (c : ClientConn) (ok : bool)     (* c.readinessProbeRPC(cc) *)
| EvCancel                                 (* c.cancel() *)
| EvGo (endpoint : string).                (* go func(endpoint) {...} *)

Global Instance event_eq_dec : EqDecision event.
Proof. solve_decision. Defined.

Record clientConnManager := mkConnManager {
  connSet : gmap string ptr;
  endpoints : list string;
  lastRoundRobinIdx : Z
}.

Record haclient := mkHAClient {
  once : bool;                        (* sync.Once: has Do already run? *)
  ctx_done : bool;                    (* is c.ctx cancelled? *)
  dialTimeout : Z;                    (* time.Duration, in nanoseconds *)
  hc_endpoints : list string;
  availableConnManager : clientConnManager
}.

Record world := mkWorld {
  client : haclient;
  next_conn : ClientConn;             (* next address the allocator hands out *)
  trace : list event
}.

Definition mgr (w : world) : clientConnManager := availableConnManager (client w).

Definition set_mgr (m : clientConnManager) (w : world) : world :=
  mkWorld (mkHAClient (once (client w)) (ctx_done (client w))
                      (dialTimeout (client w)) (hc_endpoints (client w)) m)
          (next_conn w) (trace w).

Definition set_once (b : bool) (w : world) : world :=
  mkWorld (mkHAClient b (ctx_done (client w)) (dialTimeout (client w))
                      (hc_endpoints (client w)) (mgr w))
          (next_conn w) (trace w).

Definition set_trace (t : list event) (w : world) : world :=
  mkWorld (client w) (next_conn w) t.

Definition set_next_conn (p : ClientConn) (w : world) : world :=
  mkWorld (client w) p (trace w).

(** ** The monad of methods *)

Inductive outcome (A : Type) :=
| Ret (a : A)
| Panic (msg : string).
Arguments Ret {A} a.
Arguments Panic {A} msg.

Definition M (A : Type) : Type := world -> outcome A * world.

Definition ret {A} (a : A) : M A := fun w => (Ret a, w).

Definition bind {A B} (m : M A) (k : A -> M B) : M B :=
  fun w => match m w with
           | (Ret a, w') => k a w'
           | (Panic msg, w') => (Panic msg, w')
           end.

Definition panic {A} (msg : string) : M A := fun w => (Panic msg, w).

Definition gets {A} (f : world -> A) : M A := fun w => (Ret (f w), w).

Definition modify (f : world -> world) : M unit := fun w => (Ret tt, f w).

Definition emit (e : event) : M unit :=
  modify (fun w => set_trace (trace w ++ [e])%list w).

Global Instance M_ret : MRet M := @ret.
Global Instance M_bind : MBind M := fun A B k m => bind m k.

(** ** connmgr.go *)

Definition goerror := string.

Definition err_no_available_connection : goerror := "no available connection found".

(** [sort.Strings]: ascending byte-wise lexicographic order.  The sorted
    permutation of a list of strings is unique, so the algorithm is
    immaterial. *)
Definition sort_Strings (l : list string) : list string := merge_sort String.le l.

Definition newClientConnManager : clientConnManager :=
  mkConnManager ∅ [] (-1).

(** [cc.Close()] *)
Definition Close_conn (c : ClientConn) : M unit := emit (EvClose c).

(** The body of [for _, cc := range m.connSet { if cc != nil { cc.Close() } }]
    over the bindings of the map.  Go visits them in an unspecified order;
    here it is the order of [map_to_list], and nothing below depends on it. *)
Fixpoint closeEach (bindings : list (string * ptr)) : M unit :=
  match bindings with
  | [] => ret tt
  | (_, Some c) :: rest => Close_conn c ;; closeEach rest
  | (_, None) :: rest => closeEach rest
  end.

Definition CloseAll : M unit :=
  m ← gets mgr;
  closeEach (map_to_list (connSet m)).

(** The scan of [ResetConn]:
    [for ; idx < len(m.endpoints); idx++ { if m.endpoints[idx] == endpoint { continue } }]
    run on the entries from [idx] on; the result is the final [idx]. *)
Fixpoint scanEndpoints (rest : list string) (endpoint : string) (idx : nat) : nat :=
  match rest with
  | [] => idx
  | x :: rest' =>
      if decide (x = endpoint)
      then (* continue *) scanEndpoints rest' endpoint (S idx)
      else scanEndpoints rest' endpoint (S idx)
  end.

Definition ResetConn (endpoint : string) (cc : ptr) : M unit :=
  m ← gets mgr;
  match default None (connSet m !! endpoint) with
  | Some oldConn => Close_conn oldConn
  | None => ret tt
  end ;;
  modify (fun w => set_mgr (mkConnManager (<[endpoint := cc]> (connSet (mgr w)))
                                          (endpoints (mgr w))
                                          (lastRoundRobinIdx (mgr w))) w) ;;
  emit (EvStore endpoint cc) ;;
  m ← gets mgr;
  let idx := scanEndpoints (endpoints m) endpoint 0 in
  let eps := if decide (length (endpoints m) ≤ idx)%nat
             then (endpoints m ++ [endpoint])%list
             else endpoints m in
  modify (set_mgr (mkConnManager (connSet m) (sort_Strings eps) (lastRoundRobinIdx m))).

Definition GetConn (endpoint : string) : M ptr :=
  m ← gets mgr;
  ret (default None (connSet m !! endpoint)).

(** The [range m.endpoints] loop of [FirstAvailableConn]. *)
Fixpoint firstLive (cs : gmap string ptr) (eps : list string) : ptr :=
  match eps with
  | [] => None
  | endpoint :: rest =>
      match default None (cs !! endpoint) with
      | Some cc => Some cc
      | None => firstLive cs rest
      end
  end.

(** A Go result pair: a connection pointer and an error. *)
Definition result := (ptr * option goerror)%type.

Definition FirstAvailableConn : M result :=
  m ← gets mgr;
  match firstLive (connSet m) (endpoints m) with
  | Some cc => ret (Some cc, None)
  | None => ret (None, Some err_no_available_connection)
  end.

(** [m.endpoints[i]] for an [int32] index: out of range is a run-time panic. *)
Definition index_endpoints (eps : list string) (i : Z) : M string :=
  if decide (0 <= i)
  then match eps !! Z.to_nat i with
       | Some e => ret e
       | None => panic "index out of range"
       end
  else panic "index out of range".

Definition roundRobin : M (ptr * string) :=
  m ← gets mgr;
  if decide (0 < length (endpoints m))%nat
  then
    let v := Int32.add (lastRoundRobinIdx m) 1 in
    modify (set_mgr (mkConnManager (connSet m) (endpoints m) v)) ;;
    let n := Int32.wrap32 (Z.of_nat (length (endpoints m))) in
    if decide (n = 0) then panic "integer divide by zero"
    else
      endpoint ← index_endpoints (endpoints m) (Int32.rem v n);
      ret (default None (connSet m !! endpoint), endpoint)
  else ret (None, "").

(** The [for { ... }] loop of [RoundRobinConn]; [fuel] bounds the number of
    iterations, [None] means the bound was reached. *)
Fixpoint RoundRobinConn_loop (fuel : nat) (firstEndpoint : string)
  : world -> option (outcome result * world) :=
  fun w =>
  match fuel with
  | O => None
  | S fuel' =>
      match roundRobin w with
      | (Panic msg, w') => Some (Panic msg, w')
      | (Ret (cc, endpoint), w') =>
          if decide (endpoint = "") then
            Some (Ret (None, Some err_no_available_connection), w')
          else match cc with
          | Some c => Some (Ret (Some c, None), w')
          | None =>
              if decide (firstEndpoint = "") then
                RoundRobinConn_loop fuel' endpoint w'
              else if decide (firstEndpoint = endpoint) then
                Some (Ret (None, Some err_no_available_connection), w')
              else RoundRobinConn_loop fuel' firstEndpoint w'
          end
      end
  end.

Definition RoundRobinConn_fuel (fuel : nat) : world -> option (outcome result * world) :=
  RoundRobinConn_loop fuel "".

(** ** The supervisor ([haclient]) *)

(** The collaborators are outside the program: what a dial or a readiness
    probe answers at a given call is an input of the step that makes it. *)
Record oracle := mkOracle {
  dial_ok : bool;     (* does grpc.DialContext succeed? *)
  probe_ok : bool     (* does readinessProbeRPC return nil? *)
}.

(** The function value passed as [readinessProbeRPC]; only its being [nil]
    or not is inspected by the code. *)
Inductive ReadinessProbeRPC := probeRPC (id : nat).

Definition err_no_endpoints : goerror := "no endpoints found".
Definition err_probe_nil : goerror := "readinessProbeRPC cannot be nil".
Definition err_dial : goerror := "context deadline exceeded".

(** [c.dial(endpoint)]: a successful dial allocates a new connection object. *)
Definition dial (endpoint : string) (o : oracle) : M result :=
  if dial_ok o then
    p ← gets next_conn;
    modify (set_next_conn (Pos.succ p)) ;;
    emit (EvDial endpoint (Some p)) ;;
    mret (Some p, None)
  else
    emit (EvDial endpoint None) ;;
    mret (None, Some err_dial).

(** [c.readinessProbeRPC(cc)]: [true] stands for a [nil] error. *)
Definition readinessProbe (cc : ClientConn) (o : oracle) : M bool :=
  emit (EvProbe cc (probe_ok o)) ;;
  mret (probe_ok o).

(** The body of [case <-ticker.C:] in the monitoring task of [endpoint]. *)
Definition tick (endpoint : string) (o : oracle) : M unit :=
  cc ← GetConn endpoint;
  match cc : ptr with
  | Some c =>
      ok ← readinessProbe c o;
      if ok : bool then mret tt else ResetConn endpoint None
  | None =>
      r ← dial endpoint o;
      match r : result with
      | (Some c, None) =>
          ok ← readinessProbe c o;
          if ok : bool then ResetConn endpoint (Some c) else Close_conn c
      | _ => mret tt
      end
  end.

(** One iteration of the monitoring loop: the [select] takes the [Done]
    branch only when the context is cancelled; [true] means the task
    returned. *)
Definition keepalive_iter (endpoint : string) (o : oracle) : M bool :=
  cancelled ← gets (fun w => ctx_done (client w));
  if cancelled : bool then mret true
  else tick endpoint o ;; mret false.

(** [keepalive]: one goroutine per configured endpoint. *)
Fixpoint spawnAll (eps : list string) : M unit :=
  match eps with
  | [] => mret tt
  | endpoint :: rest => emit (EvGo endpoint) ;; spawnAll rest
  end.

Definition keepalive : M unit :=
  eps ← gets (fun w => hc_endpoints (client w));
  spawnAll eps.

(** [c.once.Do(func() { c.availableConnManager.CloseAll() })] *)
Definition Close : M unit :=
  done ← gets (fun w => once (client w));
  if done : bool then mret tt
  else CloseAll ;; modify (set_once true).

Definition FirstAvailable : M result := FirstAvailableConn.

Definition RoundRobin (fuel : nat) : world -> option (outcome result * world) :=
  RoundRobinConn_fuel fuel.

(** What the monitoring tasks do while the constructor sleeps: a sequence of
    ticks, each with the answers the collaborators give. *)
Definition schedule := list (string * oracle).

Fixpoint runTicks (s : schedule) : M unit :=
  match s with
  | [] => mret tt
  | (endpoint, o) :: rest => tick endpoint o ;; runTicks rest
  end.

(** The polling loop of [newHAClient], [n] polls from now; [true] when a
    poll found an available connection. *)
Fixpoint pollStartup (n : nat) (sleeps : list schedule) : M bool :=
  match n with
  | O => mret false
  | S n' =>
      runTicks (hd [] sleeps) ;;
      r ← FirstAvailableConn;
      match r : result with
      | (_, None) => mret true
      | (_, Some _) => pollStartup n' (tl sleeps)
      end
  end.

(** [haClientOption]: a function applied to the client under construction. *)
Definition haClientOption := haclient -> haclient.

Definition WithDialTimeout (timeout : Z) : haClientOption :=
  fun c => mkHAClient (once c) (ctx_done c) timeout (hc_endpoints c)
                      (availableConnManager c).

Definition second : Z := 1000000000.

Definition joinEndpoints (eps : list string) : string := String.concat "," eps.

(** [newHAClient].  The result is the error, if any; on success the client
    is the one of the world. *)
Definition newHAClient (eps : list string) (readinessProbeRPC : option ReadinessProbeRPC)
    (opts : list haClientOption) (sleeps : list schedule) : M (option goerror) :=
  if decide (length eps = 0)%nat then mret (Some err_no_endpoints)
  else match readinessProbeRPC with
  | None => mret (Some err_probe_nil)
  | Some _ =>
      let c := mkHAClient false false (5 * second) eps newClientConnManager in
      modify (fun w => mkWorld (foldl (fun c opt => opt c) c opts)
                               (next_conn w) (trace w)) ;;
      keepalive ;;
      ok ← pollStartup 30 sleeps;
      if ok : bool then mret None
      else Close ;; mret (Some ("no available endpoints " +:+ joinEndpoints eps))
  end.

(** Running a computation for its final world, or for its value. *)
Definition exec {A} (m : M A) (w : world) : world := snd (m w).
Definition eval {A} (m : M A) (w : world) : outcome A := fst (m w).

(** A world before any client exists: a fresh registry, nothing done yet. *)
Definition initial_world : world :=
  mkWorld (mkHAClient false false 0 [] newClientConnManager) 1%positive [].

(** * Properties *)

(** ** What each registry method computes *)

Definition lookupConn (m : clientConnManager) (endpoint : string) : ptr :=
  default None (connSet m !! endpoint).

Definition closes_of (old : ptr) : list event :=
  match old with
  | Some c => [EvClose c]
  | None => []
  end.

Lemma scanEndpoints_length rest endpoint idx :
  scanEndpoints rest endpoint idx = (idx + length rest)%nat.
Proof.
  revert idx. induction rest as [|x rest IH]; intros idx; simpl.
  - lia.
  - destruct (decide (x = endpoint)); rewrite IH; lia.
Qed.

(** The scan never stops early, so [ResetConn] appends on every call. *)
Lemma ResetConn_spec endpoint cc w :
  ResetConn endpoint cc w =
  (Ret tt,
   mkWorld (mkHAClient (once (client w)) (ctx_done (client w)) (dialTimeout (client w))
              (hc_endpoints (client w))
              (mkConnManager (<[endpoint := cc]> (connSet (mgr w)))
                 (sort_Strings (endpoints (mgr w) ++ [endpoint]))
                 (lastRoundRobinIdx (mgr w))))
           (next_conn w)
           (trace w ++ closes_of (lookupConn (mgr w) endpoint) ++ [EvStore endpoint cc])).
Proof.
  destruct w as [[o cd dt heps [cs eps idx]] nx tr].
  unfold ResetConn, lookupConn, mbind, M_bind, bind, gets, mgr; simpl.
  destruct (default None (cs !! endpoint)) as [old|]; simpl;
    rewrite scanEndpoints_length;
    (destruct (decide (length eps ≤ 0 + length eps)%nat) as [_|Hn]; [|lia]);
    unfold set_trace, set_mgr, mgr; simpl; [by rewrite <- app_assoc | done].
Qed.

Lemma GetConn_spec endpoint w :
  GetConn endpoint w = (Ret (lookupConn (mgr w) endpoint), w).
Proof. reflexivity. Qed.

Lemma FirstAvailableConn_spec w :
  FirstAvailableConn w =
  (Ret match firstLive (connSet (mgr w)) (endpoints (mgr w)) with
       | Some cc => (Some cc, None)
       | None => (None, Some err_no_available_connection)
       end, w).
Proof.
  unfold FirstAvailableConn, mbind, M_bind, bind, gets; simpl.
  by destruct (firstLive _ _).
Qed.

Definition set_cursor (v : Z) (w : world) : world :=
  set_mgr (mkConnManager (connSet (mgr w)) (endpoints (mgr w)) v) w.

Lemma roundRobin_empty w :
  endpoints (mgr w) = [] -> roundRobin w = (Ret (None, ""), w).
Proof.
  intros He. unfold roundRobin, mbind, M_bind, bind, gets; simpl.
  rewrite He; simpl. done.
Qed.

Lemma roundRobin_world w :
  endpoints (mgr w) ≠ [] ->
  snd (roundRobin w) = set_cursor (Int32.add (lastRoundRobinIdx (mgr w)) 1) w.
Proof.
  intros He. unfold roundRobin, mbind, M_bind, bind, gets; simpl.
  destruct (decide (0 < length (endpoints (mgr w)))%nat) as [Hlen|Hlen].
  - unfold modify; simpl.
    destruct (decide (Int32.wrap32 (Z.of_nat (length (endpoints (mgr w)))) = 0)); [done|].
    unfold index_endpoints.
    destruct (decide (0 <= _)); [|done].
    destruct (_ !! _); done.
  - destruct (endpoints (mgr w)); [done | simpl in Hlen; lia].
Qed.

(** In the absence of overflow the probe reads the entry at the cursor,
    reduced modulo the number of entries. *)
Lemma roundRobin_ok w e :
  let v := Int32.add (lastRoundRobinIdx (mgr w)) 1 in
  let n := Z.of_nat (length (endpoints (mgr w))) in
  n < 2 ^ 31 -> 0 <= v ->
  endpoints (mgr w) !! Z.to_nat (v mod n) = Some e ->
  roundRobin w = (Ret (lookupConn (mgr w) e, e), set_cursor v w).
Proof.
  intros v n Hn Hv He.
  assert (Hpos : 0 < n).
  { destruct (endpoints (mgr w)) eqn:E; [done|]. unfold n. simpl. lia. }
  unfold roundRobin, mbind, M_bind, bind, gets; simpl.
  destruct (decide (0 < length (endpoints (mgr w)))%nat) as [Hlen|Hlen]; [|lia].
  unfold modify; simpl. fold v.
  rewrite Int32.wrap32_id by (unfold Int32.in_range, Int32.min_int, Int32.max_int; lia).
  fold n. destruct (decide (n = 0)); [lia|].
  unfold index_endpoints, Int32.rem.
  rewrite Z.rem_mod_nonneg by lia.
  destruct (decide (0 <= v mod n)) as [_|Hneg].
  - rewrite He. reflexivity.
  - pose proof (Z.mod_pos_bound v n Hpos). lia.
Qed.

Definition closes_list (bindings : list (string * ptr)) : list event :=
  flat_map (fun b => closes_of (snd b)) bindings.

Lemma closeEach_spec bindings w :
  closeEach bindings w = (Ret tt, set_trace (trace w ++ closes_list bindings) w).
Proof.
  revert w. induction bindings as [|[e [c|]] rest IH]; intros w; simpl.
  - rewrite app_nil_r. by destruct w.
  - unfold mbind, M_bind, bind, Close_conn, emit, modify; simpl.
    rewrite IH. unfold set_trace; simpl. by rewrite <- app_assoc.
  - apply IH.
Qed.

Lemma CloseAll_spec w :
  CloseAll w =
  (Ret tt, set_trace (trace w ++ closes_list (map_to_list (connSet (mgr w)))) w).
Proof.
  unfold CloseAll, mbind, M_bind, bind, gets; simpl. apply closeEach_spec.
Qed.

Lemma Close_spec w :
  Close w =
  if once (client w) then (Ret tt, w)
  else (Ret tt,
        set_once true
          (set_trace (trace w ++ closes_list (map_to_list (connSet (mgr w)))) w)).
Proof.
  unfold Close, mbind, M_bind, bind, gets; simpl.
  destruct (once (client w)); [done|].
  by rewrite CloseAll_spec.
Qed.

Lemma sort_Strings_length l : length (sort_Strings l) = length l.
Proof. unfold sort_Strings. by rewrite merge_sort_Permutation. Qed.

Lemma sort_Strings_elem_of x l : x ∈ sort_Strings l ↔ x ∈ l.
Proof. unfold sort_Strings. by rewrite merge_sort_Permutation. Qed.

Lemma sort_Strings_sorted l : StronglySorted String.le (sort_Strings l).
Proof. apply StronglySorted_merge_sort; apply _. Qed.

(** Whatever algorithm [sort.Strings] runs, its result is this list. *)
Lemma sort_Strings_unique l l' :
  Sorted String.le l' -> l' ≡ₚ l -> l' = sort_Strings l.
Proof.
  intros Hs Hp. apply (Sorted_unique String.le); [done | |].
  - apply Sorted_merge_sort; apply _.
  - unfold sort_Strings. by rewrite merge_sort_Permutation.
Qed.

(** ** Registration and the endpoint sequence *)

(** The number of entries of the sequence that name [endpoint]. *)
Definition copies (endpoint : string) (l : list string) : nat :=
  length (filter (fun x => x = endpoint) l).

(** C1 (the code departs from it): the endpoint sequence is meant to hold
    each endpoint once, but every [ResetConn] adds one more entry for its
    endpoint, whether or not the endpoint is already there; registering
    ["0.0.0.1"] twice in a fresh registry leaves two copies of it. *)
Theorem ResetConn_appends_on_every_call :
  (forall w endpoint cc,
     copies endpoint (endpoints (mgr (exec (ResetConn endpoint cc) w)))
     = S (copies endpoint (endpoints (mgr w)))) /\
  (forall w endpoint cc,
     length (endpoints (mgr (exec (ResetConn endpoint cc) w)))
     = S (length (endpoints (mgr w)))) /\
  endpoints (mgr (exec (ResetConn "0.0.0.1" None ;; ResetConn "0.0.0.1" None)
                       initial_world))
  = ["0.0.0.1"; "0.0.0.1"].
Proof.
  split; [|split].
  - intros w endpoint cc. unfold exec, copies. rewrite ResetConn_spec; simpl.
    unfold sort_Strings. rewrite merge_sort_Permutation, filter_app, length_app.
    rewrite filter_cons, decide_True by done. simpl. lia.
  - intros w endpoint cc. unfold exec. rewrite ResetConn_spec; simpl.
    rewrite sort_Strings_length, length_app; simpl. lia.
  - vm_compute. reflexivity.
Qed.

(** ** Shutdown *)

(** [Close] twice is [Close] once. *)
Lemma Close_idempotent w : exec (Close ;; Close) w = exec Close w.
Proof.
  unfold exec, mbind, M_bind, bind. rewrite (Close_spec w).
  destruct (once (client w)) eqn:Ho.
  - rewrite Close_spec, Ho. done.
  - rewrite Close_spec. simpl. done.
Qed.

(** The first [Close] calls [Close()] on every connection the registry holds. *)
Lemma Close_closes_every_live w endpoint c :
  once (client w) = false ->
  lookupConn (mgr w) endpoint = Some c ->
  EvClose c ∈ drop (length (trace w)) (trace (exec Close w)).
Proof.
  intros Ho Hc. unfold exec. rewrite Close_spec, Ho; simpl.
  rewrite drop_app_length.
  unfold lookupConn in Hc.
  destruct (connSet (mgr w) !! endpoint) as [p|] eqn:E; simpl in Hc; [|done].
  subst p. apply elem_of_map_to_list in E.
  unfold closes_list. apply list_elem_of_In, in_flat_map.
  exists (endpoint, Some c). split; [by apply list_elem_of_In | simpl; auto].
Qed.

(** ** Construction *)

(** The two configuration errors of [newHAClient]. *)
Definition InvalidConfiguration (err : goerror) : Prop :=
  err = err_no_endpoints \/ err = err_probe_nil.

(** The monitoring tasks started so far. *)
Definition tasks_started (w : world) : list string :=
  omap (fun ev => match ev with EvGo e => Some e | _ => None end) (trace w).

(** C9: construction with an empty endpoint list or without a readiness
    probe returns a configuration error at once; the world is as it was
    before the call, so no monitoring task was started. *)
Theorem newHAClient_invalid_configuration
    (eps : list string) (readinessProbeRPC : option ReadinessProbeRPC)
    (opts : list haClientOption) (sleeps : list schedule) (w : world) :
  eps = [] \/ readinessProbeRPC = None ->
  exists err,
    newHAClient eps readinessProbeRPC opts sleeps w = (Ret (Some err), w) /\
    InvalidConfiguration err /\
    tasks_started (exec (newHAClient eps readinessProbeRPC opts sleeps) w)
    = tasks_started w.
Proof.
  intros Hcfg. unfold exec, newHAClient.
  destruct (decide (length eps = 0)%nat) as [Hlen|Hlen].
  - exists err_no_endpoints. repeat split. by left.
  - destruct Hcfg as [-> | ->]; [done|].
    exists err_probe_nil. repeat split. by right.
Qed.

Lemma newHAClient_invalid_configuration_witness :
  exists err,
    newHAClient [] None [] [] initial_world = (Ret (Some err), initial_world) /\
    InvalidConfiguration err /\
    tasks_started (exec (newHAClient [] None [] []) initial_world)
    = tasks_started initial_world.
Proof.
  apply (newHAClient_invalid_configuration [] None [] [] initial_world).
  left. reflexivity.
Defined.

(** A valid configuration does start one task per endpoint, in order. *)
Lemma spawnAll_spec eps w :
  spawnAll eps w = (Ret tt, set_trace (trace w ++ map EvGo eps) w).
Proof.
  revert w. induction eps as [|e eps IH]; intros w; simpl.
  - rewrite app_nil_r. by destruct w.
  - unfold mbind, M_bind, bind, emit, modify; simpl. rewrite IH.
    unfold set_trace; simpl. by rewrite <- app_assoc.
Qed.

(** ** Frame properties of the read paths *)

(** C10: [GetConn] and [FirstAvailableConn] change nothing.  A [roundRobin]
    probe of a non-empty sequence changes the cursor only, adding one to it
    (in [int32] arithmetic: plain [+ 1] below the largest value); on an empty
    sequence it fails and changes nothing, and so does [RoundRobinConn]. *)
Theorem read_paths_frame (w : world) (endpoint : string) :
  exec (GetConn endpoint) w = w /\
  exec FirstAvailableConn w = w /\
  (endpoints (mgr w) ≠ [] ->
     exec roundRobin w = set_cursor (Int32.add (lastRoundRobinIdx (mgr w)) 1) w /\
     connSet (mgr (exec roundRobin w)) = connSet (mgr w) /\
     endpoints (mgr (exec roundRobin w)) = endpoints (mgr w) /\
     trace (exec roundRobin w) = trace w /\
     (Int32.in_range (lastRoundRobinIdx (mgr w)) ->
      lastRoundRobinIdx (mgr w) < Int32.max_int ->
      lastRoundRobinIdx (mgr (exec roundRobin w)) = lastRoundRobinIdx (mgr w) + 1)) /\
  (endpoints (mgr w) = [] ->
     roundRobin w = (Ret (None, ""), w) /\
     forall fuel,
       RoundRobinConn_fuel (S fuel) w
       = Some (Ret (None, Some err_no_available_connection), w)).
Proof.
  split; [|split; [|split]].
  - reflexivity.
  - unfold exec. by rewrite FirstAvailableConn_spec.
  - intros He. unfold exec. rewrite (roundRobin_world w He).
    repeat split. intros Hr Hlt. simpl. by apply Int32.add_no_overflow.
  - intros He. split; [by apply roundRobin_empty|].
    intros fuel. unfold RoundRobinConn_fuel; simpl.
    rewrite (roundRobin_empty w He). done.
Qed.

Lemma read_paths_frame_witness :
  let w := exec (ResetConn "a" (Some 1%positive)) initial_world in
  exec roundRobin w = set_cursor 0 w /\
  lastRoundRobinIdx (mgr (exec roundRobin w)) = lastRoundRobinIdx (mgr w) + 1 /\
  roundRobin initial_world = (Ret (None, ""), initial_world).
Proof.
  intros w.
  destruct (read_paths_frame w "a") as (_ & _ & Hne & _).
  destruct (read_paths_frame initial_world "a") as (_ & _ & _ & Hemp).
  assert (Hw : endpoints (mgr w) ≠ []) by (vm_compute; discriminate).
  destruct (Hne Hw) as (H1 & _ & _ & _ & H2).
  split; [exact H1|]. split.
  - apply H2; vm_compute; [split; discriminate | reflexivity].
  - apply Hemp. reflexivity.
Defined.

(** ** Sequences of registrations *)

Fixpoint registerAll (calls : list (string * ptr)) : M unit :=
  match calls with
  | [] => mret tt
  | (endpoint, cc) :: rest => ResetConn endpoint cc ;; registerAll rest
  end.

(** The value of the most recent registration of [endpoint] among [calls],
    [None] when there is none. *)
Definition last_registered (endpoint : string) (calls : list (string * ptr)) : ptr :=
  fold_left (fun acc call => if decide (call.1 = endpoint) then call.2 else acc)
            calls None.

(** What a sequence of registrations is to do to the connections: each call
    closes the value it supersedes, if any, and then installs its own. *)
Fixpoint register_events (before calls : list (string * ptr)) : list event :=
  match calls with
  | [] => []
  | (endpoint, cc) :: rest =>
      closes_of (last_registered endpoint before) ++ [EvStore endpoint cc]
      ++ register_events (before ++ [(endpoint, cc)]) rest
  end.

(** The connections handed to the registry. *)
Definition handles (calls : list (string * ptr)) : list ClientConn :=
  omap snd calls.

(** How many times [Close()] was called on [c]. *)
Definition close_count (c : ClientConn) (t : list event) : nat :=
  length (filter (fun ev => ev = EvClose c) t).

Section registrations.

Implicit Types (calls before : list (string * ptr)) (c : ClientConn).

Lemma last_registered_snoc endpoint calls e cc :
  last_registered endpoint (calls ++ [(e, cc)])
  = if decide (e = endpoint) then cc else last_registered endpoint calls.
Proof. unfold last_registered. by rewrite fold_left_app. Qed.

Lemma register_events_app before l1 l2 :
  register_events before (l1 ++ l2)
  = (register_events before l1 ++ register_events (before ++ l1) l2)%list.
Proof.
  revert before. induction l1 as [|[e cc] l1 IH]; intros before; simpl.
  - by rewrite app_nil_r.
  - rewrite IH, <- !app_assoc. simpl. done.
Qed.

Lemma registerAll_spec calls : forall before w,
  (forall e, lookupConn (mgr w) e = last_registered e before) ->
  let w' := exec (registerAll calls) w in
  registerAll calls w = (Ret tt, w') /\
  trace w' = (trace w ++ register_events before calls)%list /\
  forall e, lookupConn (mgr w') e = last_registered e (before ++ calls).
Proof.
  induction calls as [|[e cc] rest IH]; intros before w Hw; simpl.
  - rewrite !app_nil_r. unfold exec; simpl. split; [by destruct w | done].
  - unfold exec, mbind, M_bind, bind. rewrite ResetConn_spec.
    set (w1 := mkWorld _ _ _).
    destruct (IH (before ++ [(e, cc)]) w1) as (Hrun & Htr & Hget).
    { intros e'. rewrite last_registered_snoc. unfold lookupConn, w1, mgr; simpl.
      destruct (decide (e = e')) as [->|Hne].
      - by rewrite lookup_insert_eq.
      - rewrite lookup_insert_ne by done. apply Hw. }
    unfold exec in *. rewrite Hrun. simpl.
    split; [done|]. split.
    + rewrite Htr. unfold w1; simpl. rewrite Hw, <- !app_assoc. done.
    + intros e'. rewrite Hget, <- app_assoc. done.
Qed.

Lemma last_registered_handle endpoint calls c :
  last_registered endpoint calls = Some c -> (endpoint, Some c) ∈ calls.
Proof.
  induction calls as [|[e cc] calls IH] using rev_ind; [done|].
  rewrite last_registered_snoc. destruct (decide (e = endpoint)) as [->|Hne].
  - intros ->. set_solver.
  - intros H. set_solver.
Qed.

Lemma elem_of_handles calls c :
  c ∈ handles calls ↔ exists e, (e, Some c) ∈ calls.
Proof.
  unfold handles. rewrite list_elem_of_omap. split.
  - intros ([e p] & Hin & Hp). simpl in Hp. subst p. eauto.
  - intros [e Hin]. exists (e, Some c). done.
Qed.

Lemma handles_endpoint_unique calls c e1 e2 :
  NoDup (handles calls) ->
  (e1, Some c) ∈ calls -> (e2, Some c) ∈ calls -> e1 = e2.
Proof.
  induction calls as [|[e cc] calls IH]; [set_solver|].
  intros Hnd H1 H2. apply elem_of_cons in H1. apply elem_of_cons in H2.
  assert (Hin : forall e', (e', Some c) ∈ calls -> c ∈ handles calls).
  { intros e' He'. apply elem_of_handles. eauto. }
  destruct cc as [c'|]; simpl in Hnd.
  - apply NoDup_cons in Hnd as [Hnin Hnd].
    destruct H1 as [H1|H1]; destruct H2 as [H2|H2].
    + congruence.
    + injection H1 as -> ->. exfalso. by apply Hnin, (Hin e2).
    + injection H2 as -> ->. exfalso. by apply Hnin, (Hin e1).
    + by apply IH.
  - destruct H1 as [H1|H1]; [discriminate|].
    destruct H2 as [H2|H2]; [discriminate|].
    by apply IH.
Qed.

Lemma handles_snoc calls e cc :
  handles (calls ++ [(e, cc)]) = (handles calls ++ from_option (fun c => [c]) [] cc)%list.
Proof. unfold handles. rewrite omap_app. by destruct cc. Qed.

Lemma close_count_app c t1 t2 :
  close_count c (t1 ++ t2) = (close_count c t1 + close_count c t2)%nat.
Proof. unfold close_count. by rewrite filter_app, length_app. Qed.

Lemma close_count_closes_of c old :
  close_count c (closes_of old) = if decide (old = Some c) then 1%nat else 0%nat.
Proof.
  destruct old as [c'|]; simpl.
  - unfold close_count. rewrite filter_cons, filter_nil.
    repeat case_decide; simplify_eq; done.
  - done.
Qed.

Lemma close_count_snoc c calls e cc :
  close_count c (register_events [] (calls ++ [(e, cc)]))
  = (close_count c (register_events [] calls)
     + if decide (last_registered e calls = Some c) then 1 else 0)%nat.
Proof.
  rewrite register_events_app, close_count_app. simpl.
  rewrite close_count_app, close_count_closes_of.
  assert (close_count c [EvStore e cc] = 0%nat) as ->; [|lia].
  unfold close_count. rewrite filter_cons, filter_nil.
  by rewrite decide_False.
Qed.

(** Only connections that were registered are ever closed. *)
Lemma close_count_unregistered c calls :
  c ∉ handles calls -> close_count c (register_events [] calls) = 0%nat.
Proof.
  induction calls as [|[e cc] calls IH] using rev_ind; [done|].
  rewrite handles_snoc, close_count_snoc. intros Hnin.
  rewrite IH by set_solver.
  rewrite decide_False; [done|].
  intros Hl. apply last_registered_handle in Hl.
  apply Hnin, elem_of_app. left. apply elem_of_handles. eauto.
Qed.

(** With pairwise distinct handles, a registered connection is either
    still installed and was never closed, or was superseded and closed
    exactly once. *)
Lemma close_count_distinct calls :
  NoDup (handles calls) ->
  forall c, c ∈ handles calls ->
    ((exists e, last_registered e calls = Some c) /\
     close_count c (register_events [] calls) = 0%nat) \/
    ((forall e, last_registered e calls ≠ Some c) /\
     close_count c (register_events [] calls) = 1%nat).
Proof.
  induction calls as [|[e cc] calls IH] using rev_ind; [set_solver|].
  rewrite handles_snoc. intros Hnd c Hc.
  apply NoDup_app in Hnd as (Hnd & Hfresh & _).
  rewrite close_count_snoc.
  destruct (decide (cc = Some c)) as [->|Hcc].
  - (* [c] is the connection being installed *)
    assert (Hnew : c ∉ handles calls).
    { intros Hin. apply (Hfresh c Hin). simpl. by apply list_elem_of_singleton. }
    left. split.
    + exists e. rewrite last_registered_snoc. by rewrite decide_True.
    + rewrite close_count_unregistered by done.
      rewrite decide_False; [done|].
      intros Hl. apply Hnew, elem_of_handles.
      exists e. by apply last_registered_handle.
  - assert (Hold : c ∈ handles calls).
    { apply elem_of_app in Hc as [Hl|Hr]; [done|].
      destruct cc as [c0|]; simpl in Hr.
      - apply list_elem_of_singleton in Hr. congruence.
      - by apply elem_of_nil in Hr. }
    destruct (IH Hnd c Hold) as [[[e0 He0] Hz] | [Hno Hone]].
    + destruct (decide (e = e0)) as [->|Hne].
      * (* superseded by this call *)
        right. split.
        -- intros e1. rewrite last_registered_snoc.
           destruct (decide (e0 = e1)) as [->|Hne1]; [done|].
           intros He1.
           apply last_registered_handle in He0, He1.
           apply Hne1.
           eapply (handles_endpoint_unique calls); eauto.
        -- rewrite Hz, decide_True by done. done.
      * left. split.
        -- exists e0. rewrite last_registered_snoc. by rewrite decide_False.
        -- rewrite Hz. rewrite decide_False; [done|].
           intros He. apply last_registered_handle in He0, He.
           apply Hne. eapply (handles_endpoint_unique calls); eauto.
    + right. split.
      * intros e1. rewrite last_registered_snoc.
        destruct (decide (e = e1)); [done | apply Hno].
      * rewrite Hone. rewrite decide_False; [done | apply Hno].
Qed.

End registrations.

(** C5: after any sequence of registrations on a fresh registry, [GetConn]
    returns, for every endpoint, the value of its most recent registration
    ([nil] when there is none); each registration closes the connection it
    supersedes, once, and does so before it installs its own value; and when
    the handles registered are pairwise distinct, every one of them is either
    still installed and was never closed, or was superseded and closed exactly
    once. *)
Theorem registerAll_get_and_closes (calls : list (string * ptr)) :
  let w := exec (registerAll calls) initial_world in
  registerAll calls initial_world = (Ret tt, w) /\
  (forall e, GetConn e w = (Ret (last_registered e calls), w)) /\
  trace w = register_events [] calls /\
  (NoDup (handles calls) ->
   forall c, c ∈ handles calls ->
     ((exists e, last_registered e calls = Some c) /\ close_count c (trace w) = 0%nat) \/
     ((forall e, last_registered e calls ≠ Some c) /\ close_count c (trace w) = 1%nat)).
Proof.
  intros w.
  destruct (registerAll_spec calls [] initial_world) as (Hrun & Htr & Hget).
  { intros e. unfold lookupConn, initial_world, mgr; simpl. by rewrite lookup_empty. }
  fold w in Hrun, Htr, Hget. simpl in Htr, Hget.
  split; [done|]. split; [|split].
  - intros e. rewrite GetConn_spec. by rewrite Hget.
  - done.
  - intros Hnd c Hc. rewrite Htr. by apply close_count_distinct.
Qed.

Lemma registerAll_get_and_closes_witness :
  let calls := [("a", Some 1%positive); ("b", Some 2%positive);
                ("a", Some 3%positive); ("b", None)] in
  let w := exec (registerAll calls) initial_world in
  GetConn "a" w = (Ret (Some 3%positive), w) /\
  GetConn "b" w = (Ret None, w) /\
  trace w = [EvStore "a" (Some 1%positive); EvStore "b" (Some 2%positive);
             EvClose 1%positive; EvStore "a" (Some 3%positive);
             EvClose 2%positive; EvStore "b" None] /\
  (((exists e, last_registered e calls = Some 1%positive) /\
    close_count 1%positive (trace w) = 0%nat) \/
   ((forall e, last_registered e calls ≠ Some 1%positive) /\
    close_count 1%positive (trace w) = 1%nat)).
Proof.
  intros calls w.
  destruct (registerAll_get_and_closes calls) as (_ & Hget & Htr & Hcnt).
  split; [exact (Hget "a")|]. split; [exact (Hget "b")|]. split; [exact Htr|].
  apply Hcnt.
  - apply (bool_decide_unpack _). vm_compute. exact I.
  - apply (bool_decide_unpack _). vm_compute. exact I.
Defined.

(** ** The monitoring step in closed form *)

Definition add_events (evs : list event) (w : world) : world :=
  set_trace (trace w ++ evs) w.

Definition tick_result (endpoint : string) (o : oracle) (w : world) : world :=
  match lookupConn (mgr w) endpoint with
  | Some c =>
      let w1 := add_events [EvProbe c (probe_ok o)] w in
      if probe_ok o then w1 else exec (ResetConn endpoint None) w1
  | None =>
      if dial_ok o then
        let p := next_conn w in
        let w1 := add_events [EvDial endpoint (Some p); EvProbe p (probe_ok o)]
                             (set_next_conn (Pos.succ p) w) in
        if probe_ok o then exec (ResetConn endpoint (Some p)) w1
        else add_events [EvClose p] w1
      else add_events [EvDial endpoint None] w
  end.

Lemma tick_spec endpoint o w :
  tick endpoint o w = (Ret tt, tick_result endpoint o w).
Proof.
  unfold tick, tick_result, mbind, M_bind, bind. rewrite GetConn_spec.
  destruct (lookupConn (mgr w) endpoint) as [c|].
  - unfold readinessProbe, mbind, M_bind, bind, emit, modify, mret, M_ret, ret.
    destruct (probe_ok o); simpl; [done|].
    unfold exec. by rewrite !ResetConn_spec.
  - unfold dial, readinessProbe, mbind, M_bind, bind, emit, modify, gets,
      mret, M_ret, ret, Close_conn, emit, modify.
    destruct (dial_ok o); simpl; [|done].
    destruct (probe_ok o); simpl.
    + unfold exec. rewrite !ResetConn_spec; simpl. unfold add_events, set_trace; simpl.
      by rewrite <- !app_assoc.
    + unfold add_events, set_trace; simpl. by rewrite <- !app_assoc.
Qed.

(** ** Reachable states of the registry *)

Inductive call :=
| CallResetConn (endpoint : string) (cc : ptr)
| CallGetConn (endpoint : string)
| CallFirstAvailableConn
| CallRoundRobin
| CallCloseAll
| CallClose
| CallTick (endpoint : string) (o : oracle).

(** The world after a call, whatever the call returned. *)
Definition after (c : call) (w : world) : world :=
  match c with
  | CallResetConn endpoint cc => exec (ResetConn endpoint cc) w
  | CallGetConn endpoint => exec (GetConn endpoint) w
  | CallFirstAvailableConn => exec FirstAvailableConn w
  | CallRoundRobin => exec roundRobin w
  | CallCloseAll => exec CloseAll w
  | CallClose => exec Close w
  | CallTick endpoint o => exec (tick endpoint o) w
  end.

Inductive reachable : world -> Prop :=
| reachable_fresh w : mgr w = newClientConnManager -> reachable w
| reachable_call w c : reachable w -> reachable (after c w).

(** The endpoint sequence is sorted and lists every key of the map. *)
Definition registry_inv (m : clientConnManager) : Prop :=
  StronglySorted String.le (endpoints m) /\
  forall e, is_Some (connSet m !! e) -> e ∈ endpoints m.

Lemma registry_inv_ResetConn endpoint cc w :
  registry_inv (mgr w) -> registry_inv (mgr (exec (ResetConn endpoint cc) w)).
Proof.
  intros [_ Hdom]. unfold exec. rewrite ResetConn_spec. unfold mgr; simpl.
  split; simpl.
  - apply sort_Strings_sorted.
  - intros e He. apply sort_Strings_elem_of, elem_of_app.
    destruct (decide (endpoint = e)) as [->|Hne].
    + right. by apply list_elem_of_singleton.
    + left. apply Hdom. by rewrite lookup_insert_ne in He.
Qed.

Lemma mgr_add_events evs w : mgr (add_events evs w) = mgr w.
Proof. reflexivity. Qed.

Lemma registry_inv_after c w :
  registry_inv (mgr w) -> registry_inv (mgr (after c w)).
Proof.
  intros Hinv. destruct c as [e cc|e| | | | |e o]; simpl.
  - by apply registry_inv_ResetConn.
  - done.
  - unfold exec. by rewrite FirstAvailableConn_spec.
  - destruct (endpoints (mgr w)) as [|x l] eqn:He.
    + unfold exec. by rewrite roundRobin_empty.
    + unfold exec. rewrite roundRobin_world by (rewrite He; done).
      destruct Hinv as [Hs Hd]. split; simpl; [apply Hs | apply Hd].
  - unfold exec. by rewrite CloseAll_spec.
  - unfold exec. rewrite Close_spec. by destruct (once (client w)).
  - unfold exec. rewrite tick_spec; simpl. unfold tick_result.
    destruct (lookupConn (mgr w) e) as [c|].
    + destruct (probe_ok o); [done|]. by apply registry_inv_ResetConn.
    + destruct (dial_ok o); [|done].
      destruct (probe_ok o); [|done]. by apply registry_inv_ResetConn.
Qed.

Lemma reachable_registry_inv w : reachable w -> registry_inv (mgr w).
Proof.
  induction 1 as [w Hw|w c _ IH].
  - rewrite Hw. split; simpl; [constructor|].
    intros e [x Hx]. by rewrite lookup_empty in Hx.
  - by apply registry_inv_after.
Qed.

(** ** First-available selection *)

Lemma firstLive_smallest cs eps :
  StronglySorted String.le eps ->
  (exists e c, e ∈ eps /\ default None (cs !! e) = Some c) ->
  exists e c,
    firstLive cs eps = Some c /\ e ∈ eps /\ default None (cs !! e) = Some c /\
    forall e' c', e' ∈ eps -> default None (cs !! e') = Some c' -> String.le e e'.
Proof.
  induction 1 as [|x rest Hsorted IH Hle]; intros (e & c & Hin & Hlive).
  - by apply elem_of_nil in Hin.
  - simpl. destruct (default None (cs !! x)) as [cx|] eqn:Hx.
    + exists x, cx. split; [done|]. split; [by left|]. split; [done|].
      intros e' c' He' _. apply elem_of_cons in He' as [->|He'].
      * reflexivity.
      * rewrite Forall_forall in Hle. by apply Hle.
    + assert (Hrest : e ∈ rest).
      { apply elem_of_cons in Hin as [->|?]; [congruence | done]. }
      destruct IH as (e0 & c0 & Hf & Hin0 & Hl0 & Hmin); [by eauto|].
      exists e0, c0. split; [done|]. split; [by right|]. split; [done|].
      intros e' c' He' Hl'. apply elem_of_cons in He' as [->|He'].
      * congruence.
      * by eapply Hmin.
Qed.

(** C6: in every state the registry can reach that holds a live connection,
    [FirstAvailableConn] returns, without error, the connection of the
    smallest endpoint, in byte-wise lexicographic order, among those with a
    live connection. *)
Theorem FirstAvailableConn_smallest (w : world) :
  reachable w ->
  (exists e c, lookupConn (mgr w) e = Some c) ->
  exists e c,
    FirstAvailableConn w = (Ret (Some c, None), w) /\
    lookupConn (mgr w) e = Some c /\
    forall e' c', lookupConn (mgr w) e' = Some c' -> String.le e e'.
Proof.
  intros Hreach (e & c & Hlive).
  destruct (reachable_registry_inv w Hreach) as [Hsorted Hdom].
  assert (Hin : forall e' c', lookupConn (mgr w) e' = Some c' -> e' ∈ endpoints (mgr w)).
  { intros e' c' Hl. apply Hdom. unfold lookupConn in Hl.
    destruct (connSet (mgr w) !! e'); [by eexists | done]. }
  destruct (firstLive_smallest (connSet (mgr w)) (endpoints (mgr w)) Hsorted)
    as (e0 & c0 & Hf & _ & Hl0 & Hmin).
  { exists e, c. split; [by eapply Hin | done]. }
  exists e0, c0. rewrite FirstAvailableConn_spec, Hf.
  split; [done|]. split; [done|].
  intros e' c' Hl'. eapply Hmin; [by eapply Hin | done].
Qed.

Lemma FirstAvailableConn_smallest_witness :
  let w := after (CallResetConn "a" (Some 2%positive))
             (after (CallResetConn "b" (Some 1%positive)) initial_world) in
  exists e c,
    FirstAvailableConn w = (Ret (Some c, None), w) /\
    lookupConn (mgr w) e = Some c /\
    forall e' c', lookupConn (mgr w) e' = Some c' -> String.le e e'.
Proof.
  intros w. apply (FirstAvailableConn_smallest w).
  - do 2 apply reachable_call. apply reachable_fresh. reflexivity.
  - exists "a", 2%positive. vm_compute. reflexivity.
Defined.

(** ** The monitoring tasks *)

(** The result of the most recent readiness probe of [c], if it was probed. *)
Definition last_probe (c : ClientConn) (t : list event) : option bool :=
  fold_left (fun acc ev =>
               match ev with
               | EvProbe c' ok => if decide (c' = c) then Some ok else acc
               | _ => acc
               end) t None.

(** The calls that reach the registry of a running supervisor: its public
    methods and the ticks of its monitoring tasks. *)
Definition supervisor_call (c : call) : Prop :=
  match c with
  | CallResetConn _ _ | CallCloseAll => False
  | _ => True
  end.

Inductive supervised : world -> Prop :=
| supervised_fresh w : mgr w = newClientConnManager -> supervised w
| supervised_call w c : supervisor_call c -> supervised w -> supervised (after c w).

Fixpoint run_calls (cs : list call) (w : world) : world :=
  match cs with
  | [] => w
  | c :: cs' => run_calls cs' (after c w)
  end.

(** Registered connections passed their latest probe, were handed out by the
    allocator, and sit under one endpoint only. *)
Definition probe_inv (w : world) : Prop :=
  (forall e c, lookupConn (mgr w) e = Some c ->
     last_probe c (trace w) = Some true /\ (c < next_conn w)%positive) /\
  (forall e1 e2 c, lookupConn (mgr w) e1 = Some c ->
     lookupConn (mgr w) e2 = Some c -> e1 = e2).

Section monitoring.

Implicit Types (w : world) (c p : ClientConn) (e : string) (o : oracle).

Lemma lookupConn_ResetConn e cc w e' :
  lookupConn (mgr (exec (ResetConn e cc) w)) e'
  = if decide (e = e') then cc else lookupConn (mgr w) e'.
Proof.
  unfold exec. rewrite ResetConn_spec. unfold lookupConn, mgr; simpl.
  destruct (decide (e = e')) as [->|Hne].
  - by rewrite lookup_insert_eq.
  - by rewrite lookup_insert_ne.
Qed.

Lemma ResetConn_trace e cc w :
  trace (exec (ResetConn e cc) w)
  = trace w ++ closes_of (lookupConn (mgr w) e) ++ [EvStore e cc].
Proof. unfold exec. by rewrite ResetConn_spec. Qed.

Lemma ResetConn_next_conn e cc w :
  next_conn (exec (ResetConn e cc) w) = next_conn w.
Proof. unfold exec. by rewrite ResetConn_spec. Qed.

Lemma last_probe_app c t evs :
  last_probe c (t ++ evs)
  = fold_left (fun acc ev =>
                 match ev with
                 | EvProbe c' ok => if decide (c' = c) then Some ok else acc
                 | _ => acc
                 end) evs (last_probe c t).
Proof. unfold last_probe. by rewrite fold_left_app. Qed.

Lemma last_probe_closes c t bindings :
  last_probe c (t ++ closes_list bindings) = last_probe c t.
Proof.
  rewrite last_probe_app. generalize (last_probe c t).
  induction bindings as [|[e [c'|]] rest IH]; intros acc; simpl; auto.
Qed.

Lemma last_probe_closes_of c t old evs :
  last_probe c (t ++ closes_of old ++ evs) = last_probe c (t ++ evs).
Proof. rewrite !last_probe_app. by destruct old. Qed.

(** The connection map and the allocator after a tick. *)
Lemma tick_lookupConn e o w e' :
  lookupConn (mgr (exec (tick e o) w)) e'
  = match lookupConn (mgr w) e with
    | Some c => if probe_ok o then lookupConn (mgr w) e'
                else if decide (e = e') then None else lookupConn (mgr w) e'
    | None => if dial_ok o && probe_ok o
              then if decide (e = e') then Some (next_conn w)
                   else lookupConn (mgr w) e'
              else lookupConn (mgr w) e'
    end.
Proof.
  unfold exec. rewrite tick_spec; simpl. unfold tick_result.
  destruct (lookupConn (mgr w) e) as [c|].
  - destruct (probe_ok o); [done|]. by rewrite lookupConn_ResetConn.
  - destruct (dial_ok o); simpl; [|done].
    destruct (probe_ok o); [|done]. by rewrite lookupConn_ResetConn.
Qed.

Lemma tick_next_conn e o w :
  next_conn (exec (tick e o) w)
  = match lookupConn (mgr w) e with
    | Some _ => next_conn w
    | None => if dial_ok o then Pos.succ (next_conn w) else next_conn w
    end.
Proof.
  unfold exec. rewrite tick_spec; simpl. unfold tick_result.
  destruct (lookupConn (mgr w) e) as [c|].
  - destruct (probe_ok o); [done|]. by rewrite ResetConn_next_conn.
  - destruct (dial_ok o); simpl; [|done].
    destruct (probe_ok o); [|done]. by rewrite ResetConn_next_conn.
Qed.

Lemma tick_trace e o w :
  trace (exec (tick e o) w)
  = trace w ++
    match lookupConn (mgr w) e with
    | Some c => if probe_ok o then [EvProbe c true]
                else [EvProbe c false; EvClose c; EvStore e None]
    | None => if dial_ok o
              then if probe_ok o
                   then [EvDial e (Some (next_conn w)); EvProbe (next_conn w) true;
                         EvStore e (Some (next_conn w))]
                   else [EvDial e (Some (next_conn w)); EvProbe (next_conn w) false;
                         EvClose (next_conn w)]
              else [EvDial e None]
    end.
Proof.
  unfold exec. rewrite tick_spec; simpl. unfold tick_result.
  destruct (lookupConn (mgr w) e) as [c|] eqn:Hl.
  - destruct (probe_ok o); [done|]. rewrite ResetConn_trace; simpl.
    rewrite mgr_add_events, Hl; simpl. by rewrite <- app_assoc.
  - destruct (dial_ok o); simpl; [|done].
    destruct (probe_ok o).
    + rewrite ResetConn_trace; simpl. unfold lookupConn, mgr in *; simpl.
      rewrite Hl; simpl. by rewrite <- app_assoc.
    + simpl. by rewrite <- app_assoc.
Qed.

End monitoring.

Section supervision.

Implicit Types (w : world) (c p : ClientConn) (e : string) (o : oracle).

(** Calls other than ticks leave the map and the allocator alone and add
    at most [Close()] events. *)
Lemma quiet_call (k : call) w :
  supervisor_call k -> (forall e o, k ≠ CallTick e o) ->
  (forall e, lookupConn (mgr (after k w)) e = lookupConn (mgr w) e) /\
  next_conn (after k w) = next_conn w /\
  exists bindings, trace (after k w) = trace w ++ closes_list bindings.
Proof.
  intros Hk Hnt. destruct k as [e cc|e| | | | |e o]; simpl in *; try done.
  - repeat split. exists []. by rewrite app_nil_r.
  - unfold exec. rewrite FirstAvailableConn_spec; simpl.
    repeat split. exists []. by rewrite app_nil_r.
  - destruct (endpoints (mgr w)) as [|x l] eqn:He.
    + unfold exec. rewrite roundRobin_empty by done. simpl.
      repeat split. exists []. by rewrite app_nil_r.
    + unfold exec. rewrite roundRobin_world by (rewrite He; done).
      repeat split. exists []. simpl. by rewrite app_nil_r.
  - unfold exec. rewrite Close_spec. destruct (once (client w)); simpl.
    + repeat split. exists []. by rewrite app_nil_r.
    + repeat split. by eexists.
  - by specialize (Hnt e o).
Qed.

Lemma tick_or_quiet (k : call) :
  (exists e o, k = CallTick e o) \/ (forall e o, k ≠ CallTick e o).
Proof. destruct k; try (right; by intros); left; eauto. Qed.

Lemma probe_inv_tick e o w : probe_inv w -> probe_inv (exec (tick e o) w).
Proof.
  intros [Hreg Huniq]. split.
  - intros e' c'. rewrite tick_lookupConn, tick_trace, tick_next_conn.
    rewrite last_probe_app.
    destruct (lookupConn (mgr w) e) as [c|] eqn:Hl.
    + destruct (probe_ok o) eqn:Hp.
      * intros Hl'. destruct (Hreg _ _ Hl') as [Hlast Hlt]. simpl.
        split; [|done]. by case_decide.
      * case_decide as Hee; [done|]. intros Hl'.
        destruct (Hreg _ _ Hl') as [Hlast Hlt]. simpl.
        split; [|done]. rewrite decide_False; [done|].
        intros ->. apply Hee. by eapply Huniq.
    + destruct (dial_ok o) eqn:Hd; simpl.
      * destruct (probe_ok o) eqn:Hp; simpl.
        -- case_decide as Hee.
           ++ intros [= <-]. rewrite decide_True by done. split; [done | lia].
           ++ intros Hl'. destruct (Hreg _ _ Hl') as [Hlast Hlt].
              rewrite decide_False by lia. split; [done | lia].
        -- intros Hl'. destruct (Hreg _ _ Hl') as [Hlast Hlt].
           rewrite decide_False by lia. split; [done | lia].
      * intros Hl'. destruct (Hreg _ _ Hl') as [Hlast Hlt]. done.
  - intros e1 e2 c'. rewrite !tick_lookupConn.
    destruct (lookupConn (mgr w) e) as [c|] eqn:Hl.
    + destruct (probe_ok o); [apply Huniq|].
      repeat case_decide; try done. apply Huniq.
    + destruct (dial_ok o && probe_ok o); [|apply Huniq].
      repeat case_decide; subst; try done.
      * intros [= <-] Hl2. destruct (Hreg _ _ Hl2). lia.
      * intros Hl1 [= <-]. destruct (Hreg _ _ Hl1). lia.
      * apply Huniq.
Qed.

Lemma probe_inv_after (k : call) w :
  supervisor_call k -> probe_inv w -> probe_inv (after k w).
Proof.
  intros Hk Hinv.
  destruct (tick_or_quiet k) as [(e & o & ->)|Hnt].
  { by apply probe_inv_tick. }
  destruct (quiet_call k w Hk Hnt) as (Hl & Hn & bindings & Ht).
  destruct Hinv as [Hreg Huniq]. split.
  - intros e c. rewrite Hl, Hn, Ht, last_probe_closes. apply Hreg.
  - intros e1 e2 c. rewrite !Hl. apply Huniq.
Qed.

Lemma supervised_probe_inv w : supervised w -> probe_inv w.
Proof.
  induction 1 as [w Hw|w k Hk _ IH].
  - unfold probe_inv, lookupConn. rewrite Hw; simpl.
    split; intros *; by rewrite lookup_empty.
  - by apply probe_inv_after.
Qed.

(** A connection the allocator has handed out and the registry does not
    hold is never registered later. *)
Lemma unregistered_after (k : call) w p :
  supervisor_call k ->
  (p < next_conn w)%positive -> (forall e, lookupConn (mgr w) e ≠ Some p) ->
  (p < next_conn (after k w))%positive /\
  forall e, lookupConn (mgr (after k w)) e ≠ Some p.
Proof.
  intros Hk Hlt Hno.
  destruct (tick_or_quiet k) as [(e & o & ->)|Hnt].
  - simpl. rewrite tick_next_conn. split.
    + destruct (lookupConn (mgr w) e); [done|]. destruct (dial_ok o); lia.
    + intros e'. rewrite tick_lookupConn.
      destruct (lookupConn (mgr w) e).
      * destruct (probe_ok o); [apply Hno|]. case_decide; [done | apply Hno].
      * destruct (dial_ok o && probe_ok o); [|apply Hno].
        case_decide; [|apply Hno]. intros [= <-]. lia.
  - destruct (quiet_call k w Hk Hnt) as (Hl & Hn & _).
    rewrite Hn. split; [done|]. intros e. rewrite Hl. apply Hno.
Qed.

Lemma unregistered_forever (ks : list call) w p :
  Forall supervisor_call ks ->
  (p < next_conn w)%positive -> (forall e, lookupConn (mgr w) e ≠ Some p) ->
  forall e, lookupConn (mgr (run_calls ks w)) e ≠ Some p.
Proof.
  intros Hks. revert w. induction Hks as [|k ks Hk _ IH]; intros w Hlt Hno; simpl.
  - done.
  - destruct (unregistered_after k w p Hk Hlt Hno) as [Hlt' Hno'].
    by apply IH.
Qed.

End supervision.

(** C7: in every state a running supervisor reaches, tick by tick, each
    registered connection passed its most recent readiness probe.  A failed
    probe of the registered connection closes it and clears the entry within
    the same tick; a freshly dialed connection whose probe fails is closed in
    that tick; and neither is registered again, whatever the supervisor does
    afterwards. *)
Theorem tick_never_keeps_failed_probe (w : world) :
  supervised w ->
  (forall e c, lookupConn (mgr w) e = Some c -> last_probe c (trace w) = Some true) /\
  (forall e c o,
     lookupConn (mgr w) e = Some c -> probe_ok o = false ->
     let w' := exec (tick e o) w in
     trace w' = trace w ++ [EvProbe c false; EvClose c; EvStore e None] /\
     lookupConn (mgr w') e = None /\
     forall ks, Forall supervisor_call ks ->
       forall e', lookupConn (mgr (run_calls ks w')) e' ≠ Some c) /\
  (forall e o,
     lookupConn (mgr w) e = None -> dial_ok o = true -> probe_ok o = false ->
     let w' := exec (tick e o) w in
     let p := next_conn w in
     trace w' = trace w ++ [EvDial e (Some p); EvProbe p false; EvClose p] /\
     connSet (mgr w') = connSet (mgr w) /\
     forall ks, Forall supervisor_call ks ->
       forall e', lookupConn (mgr (run_calls ks w')) e' ≠ Some p).
Proof.
  intros Hsup. destruct (supervised_probe_inv w Hsup) as [Hreg Huniq].
  split; [|split].
  - intros e c Hl. by destruct (Hreg e c Hl).
  - intros e c o Hl Hp w'. unfold w'. split; [|split].
    + by rewrite tick_trace, Hl, Hp.
    + rewrite tick_lookupConn, Hl, Hp. by rewrite decide_True.
    + intros ks Hks. apply unregistered_forever; [done| |].
      * rewrite tick_next_conn, Hl. by destruct (Hreg e c Hl).
      * intros e'. rewrite tick_lookupConn, Hl, Hp.
        case_decide as Hee; [done|]. intros Hl'. apply Hee. by eapply Huniq.
  - intros e o Hl Hd Hp w' p. unfold w', p. split; [|split].
    + by rewrite tick_trace, Hl, Hd, Hp.
    + unfold exec. rewrite tick_spec; simpl. unfold tick_result.
      by rewrite Hl, Hd, Hp.
    + intros ks Hks. apply unregistered_forever; [done| |].
      * rewrite tick_next_conn, Hl, Hd. lia.
      * intros e'. rewrite tick_lookupConn, Hl, Hd, Hp. simpl.
        intros Hl'. destruct (Hreg _ _ Hl'). lia.
Qed.

Lemma tick_never_keeps_failed_probe_witness :
  let w := after (CallTick "0.0.0.1" (mkOracle true true)) initial_world in
  lookupConn (mgr w) "0.0.0.1" = Some 1%positive /\
  last_probe 1%positive (trace w) = Some true /\
  lookupConn (mgr (exec (tick "0.0.0.1" (mkOracle true false)) w)) "0.0.0.1" = None /\
  trace (exec (tick "0.0.0.2" (mkOracle true false)) w)
  = trace w ++ [EvDial "0.0.0.2" (Some 2%positive); EvProbe 2%positive false;
                EvClose 2%positive].
Proof.
  intros w.
  assert (Hsup : supervised w).
  { apply supervised_call; [exact I|]. apply supervised_fresh. reflexivity. }
  destruct (tick_never_keeps_failed_probe w Hsup) as (Hreg & Hfail & Hfresh).
  assert (Hl : lookupConn (mgr w) "0.0.0.1" = Some 1%positive) by (vm_compute; reflexivity).
  split; [exact Hl|]. split; [exact (Hreg _ _ Hl)|]. split.
  - apply (Hfail "0.0.0.1" 1%positive (mkOracle true false) Hl eq_refl).
  - apply (Hfresh "0.0.0.2" (mkOracle true false)); vm_compute; reflexivity.
Defined.

(** ** Round-robin selection away from overflow *)

Lemma set_cursor_set_cursor v v' w : set_cursor v (set_cursor v' w) = set_cursor v w.
Proof. reflexivity. Qed.

Lemma set_cursor_id w : set_cursor (lastRoundRobinIdx (mgr w)) w = w.
Proof. by destruct w as [[? ? ? ? []] ? ?]. Qed.

Section round_robin.

Variable w : world.

Local Abbreviation eps := (endpoints (mgr w)).
Local Abbreviation N := (Z.of_nat (length (endpoints (mgr w)))).
Local Abbreviation c0 := (lastRoundRobinIdx (mgr w)).

(** The sequence is non-empty and its length fits an [int32]; the cursor
    has not wrapped. *)
Hypothesis Hlen : 0 < N < 2 ^ 31.
Hypothesis Hcur : -1 <= c0.

(** The entry the [k]-th probe from now reads. *)
Definition entry (k : Z) : option string := eps !! Z.to_nat ((c0 + k) mod N).

Lemma entry_is_Some k : is_Some (entry k).
Proof.
  unfold entry. apply lookup_lt_is_Some.
  pose proof (Z.mod_pos_bound (c0 + k) N ltac:(lia)). lia.
Qed.





(** The [k+1]-st probe. *)
Lemma probe_step k e :
  0 <= k -> c0 + k + 1 <= Int32.max_int ->
  entry (k + 1) = Some e ->
  roundRobin (set_cursor (c0 + k) w)
  = (Ret (lookupConn (mgr w) e, e), set_cursor (c0 + k + 1) w).
Proof.
  intros Hk Hroom He.
  assert (Hadd : Int32.add (c0 + k) 1 = c0 + k + 1).
  { apply Int32.add_no_overflow;
      unfold Int32.in_range, Int32.min_int, Int32.max_int in *; lia. }
  pose proof (roundRobin_ok (set_cursor (c0 + k) w) e) as Hrr.
  cbv zeta in Hrr. unfold set_cursor at 1 2 3 4 5 in Hrr. unfold mgr at 1 2 3 4 5 in Hrr.
  simpl in Hrr. rewrite Hadd in Hrr.
  rewrite Hrr; [done | apply Hlen | lia |].
  unfold entry in He. by replace (c0 + k + 1) with (c0 + (k + 1)) by lia.
Qed.

End round_robin.

Lemma RoundRobinConn_loop_S fuel firstEndpoint w :
  RoundRobinConn_loop (S fuel) firstEndpoint w =
  match roundRobin w with
  | (Panic msg, w') => Some (Panic msg, w')
  | (Ret (cc, endpoint), w') =>
      if decide (endpoint = "") then
        Some (Ret (None, Some err_no_available_connection), w')
      else match cc with
      | Some c => Some (Ret (Some c, None), w')
      | None =>
          if decide (firstEndpoint = "") then RoundRobinConn_loop fuel endpoint w'
          else if decide (firstEndpoint = endpoint) then
            Some (Ret (None, Some err_no_available_connection), w')
          else RoundRobinConn_loop fuel firstEndpoint w'
      end
  end.
Proof. reflexivity. Qed.

Section round_robin_loop.

Variable w : world.

Local Abbreviation eps := (endpoints (mgr w)).
Local Abbreviation N := (Z.of_nat (length (endpoints (mgr w)))).
Local Abbreviation c0 := (lastRoundRobinIdx (mgr w)).

Hypothesis Hlen : 0 < N < 2 ^ 31.
Hypothesis Hcur : -1 <= c0.






End round_robin_loop.

(** ** Rotation *)

(** [n] successive calls of [roundRobin], with what each returned. *)
Fixpoint roundRobin_n (n : nat) (w : world) : list (outcome (ptr * string)) :=
  match n with
  | O => []
  | S n' => eval roundRobin w :: roundRobin_n n' (exec roundRobin w)
  end.

Section rotation.

Variable w : world.

Local Abbreviation eps := (endpoints (mgr w)).
Local Abbreviation N := (Z.of_nat (length (endpoints (mgr w)))).
Local Abbreviation c0 := (lastRoundRobinIdx (mgr w)).

Hypothesis Hlen : 0 < N < 2 ^ 31.
Hypothesis Hcur : -1 <= c0.

Definition probed (e : string) : outcome (ptr * string) :=
  Ret (lookupConn (mgr w) e, e).

Lemma roundRobin_n_lookup (n : nat) : forall (k : Z) (i : nat),
  0 <= k -> c0 + k + Z.of_nat n <= Int32.max_int -> (i < n)%nat ->
  roundRobin_n n (set_cursor (c0 + k) w) !! i
  = probed <$> entry w (k + 1 + Z.of_nat i).
Proof.
  induction n as [|n IH]; intros k i Hk Hroom Hi; [lia|].
  destruct (entry_is_Some w Hlen (k + 1)) as [e He].
  simpl. unfold eval, exec.
  rewrite (probe_step w Hlen Hcur k e) by (lia || done). simpl.
  destruct i as [|i]; simpl.
  - replace (k + 1 + Z.of_nat 0) with (k + 1) by lia. by rewrite He.
  - replace (c0 + k + 1) with (c0 + (k + 1)) by lia.
    rewrite IH by lia. f_equal. f_equal. lia.
Qed.

(** Away from overflow, [N] calls visit the sequence once round, starting
    at the position after the cursor. *)
Lemma roundRobin_n_rotate :
  c0 + N <= Int32.max_int ->
  roundRobin_n (length eps) w
  = probed <$> rotate (Z.to_nat ((c0 + 1) mod N)) eps.
Proof.
  intros Hroom.
  assert (Hlen_n : forall n w', length (roundRobin_n n w') = n).
  { induction n as [|n IH]; intros w'; simpl; [done | by rewrite IH]. }
  apply list_eq. intros i.
  destruct (decide (i < length eps)%nat) as [Hi|Hi].
  - pose proof (roundRobin_n_lookup (length eps) 0 i ltac:(lia) ltac:(lia) Hi) as P.
    replace (c0 + 0) with c0 in P by lia. rewrite set_cursor_id in P.
    rewrite P, list_lookup_fmap, lookup_rotate_r by done.
    unfold entry, rotate_nat_add. f_equal. f_equal. f_equal.
    pose proof (Z.mod_pos_bound (c0 + 1) N ltac:(lia)).
    rewrite Z2Nat.id by lia. rewrite Zplus_mod_idemp_l. f_equal. lia.
  - rewrite !lookup_ge_None_2; [done | |].
    + rewrite length_fmap, length_rotate. lia.
    + rewrite Hlen_n. lia.
Qed.

End rotation.

Lemma rotate_Permutation {A} (n : nat) (l : list A) : rotate n l ≡ₚ l.
Proof.
  unfold rotate. rewrite Permutation_app_comm. by rewrite take_drop.
Qed.

(** ** Where the code departs from its design *)

Lemma reachable_iter (n : nat) (k : call) w :
  reachable w -> reachable (Nat.iter n (after k) w).
Proof.
  intros Hw. induction n as [|n IH]; simpl; [done | by apply reachable_call].
Qed.

(** [n] probes move the cursor [n] places as long as it stays in range. *)
Lemma roundRobin_iter (n : nat) w :
  endpoints (mgr w) ≠ [] ->
  Int32.in_range (lastRoundRobinIdx (mgr w)) ->
  lastRoundRobinIdx (mgr w) + Z.of_nat n <= Int32.max_int ->
  Nat.iter n (after CallRoundRobin) w
  = set_cursor (lastRoundRobinIdx (mgr w) + Z.of_nat n) w.
Proof.
  intros Hne Hr. induction n as [|n IH]; intros Hroom.
  - change (Nat.iter 0 (after CallRoundRobin) w) with w.
    change (Z.of_nat 0) with 0. by rewrite Z.add_0_r, set_cursor_id.
  - rewrite Nat.iter_succ, IH by lia. unfold after, exec.
    rewrite roundRobin_world by done. rewrite set_cursor_set_cursor.
    f_equal. unfold set_cursor, mgr; simpl. fold (mgr w).
    rewrite Int32.add_no_overflow; unfold Int32.in_range, Int32.max_int in *; lia.
Qed.

(** The number of probes after which a fresh cursor stands at the largest
    [int32]. *)
Definition probes_to_overflow : nat := Z.to_nat (2 ^ 31).

Lemma probes_to_overflow_Z : Z.of_nat probes_to_overflow = 2 ^ 31.
Proof. unfold probes_to_overflow. apply Z2Nat.id. lia. Qed.

Lemma overflow_reached w :
  endpoints (mgr w) ≠ [] -> lastRoundRobinIdx (mgr w) = -1 ->
  Nat.iter probes_to_overflow (after CallRoundRobin) w = set_cursor Int32.max_int w.
Proof.
  intros Hne Hc. rewrite roundRobin_iter; try done.
  - rewrite Hc, probes_to_overflow_Z. reflexivity.
  - rewrite Hc. unfold Int32.in_range, Int32.min_int, Int32.max_int. lia.
  - rewrite Hc, probes_to_overflow_Z. unfold Int32.max_int. lia.
Qed.

Definition healthy : oracle := mkOracle true true.
Definition unhealthy : oracle := mkOracle true false.

(** A client for two endpoints whose construction succeeds at the first
    poll: during the first sleep the task of endpoint 1 dials and probes
    successfully. *)
Definition construct_two : M (option goerror) :=
  newHAClient ["0.0.0.1"; "0.0.0.2"] (Some (probeRPC 0)) []
              [[("0.0.0.1", healthy)]].

Definition constructed : world := exec construct_two initial_world.

Lemma constructed_ok : eval construct_two initial_world = Ret None.
Proof. vm_compute. reflexivity. Qed.

Lemma constructed_supervised : supervised constructed.
Proof.
  assert (Heq : constructed
    = after CallFirstAvailableConn
        (after (CallTick "0.0.0.1" healthy)
           (mkWorld (mkHAClient false false (5 * second) ["0.0.0.1"; "0.0.0.2"]
                                newClientConnManager)
                    1%positive [EvGo "0.0.0.1"; EvGo "0.0.0.2"])))
    by (vm_compute; reflexivity).
  rewrite Heq. repeat (apply supervised_call; [exact I|]).
  by apply supervised_fresh.
Qed.

(** C2 (the code departs from it): [Close] is to cancel the context the
    monitoring tasks watch, but it never calls [cancel]: its only events are
    [Close()] calls on connections and the context is as live after it as
    before.  After [Close] on a freshly constructed client the task of
    endpoint 1 does not return at its next iteration. *)
Theorem Close_does_not_cancel :
  (forall w,
     ctx_done (client (exec Close w)) = ctx_done (client w) /\
     exists cs, trace (exec Close w) = (trace w ++ map EvClose cs)%list) /\
  ctx_done (client (exec Close constructed)) = false /\
  forall o, eval (keepalive_iter "0.0.0.1" o) (exec Close constructed) = Ret false.
Proof.
  split; [|split].
  - intros w. unfold exec. rewrite Close_spec.
    destruct (once (client w)); simpl.
    + split; [done|]. exists []. by rewrite app_nil_r.
    + split; [done|]. unfold closes_list.
      induction (map_to_list (connSet (mgr w))) as [|[e [c|]] l [cs IH]]; simpl.
      * by exists [].
      * apply app_inv_head in IH. exists (c :: cs). by rewrite IH.
      * apply app_inv_head in IH. exists cs. by rewrite IH.
  - vm_compute. reflexivity.
  - intros [[] []]; vm_compute; reflexivity.
Qed.

(** After construction, endpoint 1 fails a probe and endpoint 2 becomes
    healthy. *)
Definition one_of_two_live : world :=
  after (CallTick "0.0.0.2" healthy)
    (after (CallTick "0.0.0.1" unhealthy) constructed).

(** C3 (the code departs from it): with a live connection in the registry
    [RoundRobinConn] is to return one.  After endpoint 1 has been registered
    and cleared, the sequence holds it twice; the scan then meets endpoint 1
    a second time before it reaches endpoint 2, takes that for a full round,
    and fails although endpoint 2 is live. *)
Theorem RoundRobinConn_misses_live_connection :
  supervised one_of_two_live /\
  endpoints (mgr one_of_two_live) = ["0.0.0.1"; "0.0.0.1"; "0.0.0.2"] /\
  lookupConn (mgr one_of_two_live) "0.0.0.2" = Some 2%positive /\
  forall fuel,
    RoundRobinConn_fuel (S (S fuel)) one_of_two_live
    = Some (Ret (None, Some err_no_available_connection),
            set_cursor 1 one_of_two_live).
Proof.
  split; [|split; [|split]].
  - repeat (apply supervised_call; [exact I|]). apply constructed_supervised.
  - vm_compute. reflexivity.
  - vm_compute. reflexivity.
  - intros fuel. vm_compute. reflexivity.
Qed.

(** After construction, endpoint 1 fails a probe and recovers, and
    endpoint 2 becomes healthy: both endpoints are live. *)
Definition recovered_and_live : world :=
  after (CallTick "0.0.0.2" healthy)
    (after (CallTick "0.0.0.1" healthy)
       (after (CallTick "0.0.0.1" unhealthy) constructed)).

(** Three endpoints, all live. *)
Definition three_live : world :=
  after (CallResetConn "0.0.0.3" (Some 3%positive))
    (after (CallResetConn "0.0.0.2" (Some 2%positive))
       (after (CallResetConn "0.0.0.1" (Some 1%positive)) initial_world)).

Definition three_live_overflowed : world :=
  Nat.iter probes_to_overflow (after CallRoundRobin) three_live.

Lemma three_live_overflowed_eq :
  three_live_overflowed = set_cursor Int32.max_int three_live.
Proof. apply overflow_reached; [vm_compute; discriminate | reflexivity]. Qed.

(** C4 (the code departs from it): [N] calls on [N] live endpoints are to
    yield each endpoint once, from any cursor.  Once an endpoint has been
    registered more than once the sequence repeats it, and two calls on two
    live endpoints yield the same endpoint twice.  And from the largest
    [int32], which a fresh cursor reaches after [2^31] probes, the cursor
    wraps to a negative value whose remainder is a negative index: the call
    panics instead of yielding an endpoint. *)
Theorem roundRobin_unfair_rotation :
  (supervised recovered_and_live /\
   (forall e, is_Some (lookupConn (mgr recovered_and_live) e)
              <-> e = "0.0.0.1" \/ e = "0.0.0.2") /\
   roundRobin_n 2 recovered_and_live
   = [Ret (Some 2%positive, "0.0.0.1"); Ret (Some 2%positive, "0.0.0.1")]) /\
  (reachable three_live_overflowed /\
   lastRoundRobinIdx (mgr three_live_overflowed) = Int32.max_int /\
   roundRobin_n 3 three_live_overflowed
   = [Panic "index out of range"; Panic "index out of range";
      Ret (Some 1%positive, "0.0.0.1")]).
Proof.
  split; split; [| split | | split].
  - repeat (apply supervised_call; [exact I|]). apply constructed_supervised.
  - intros e. unfold recovered_and_live, after.
    rewrite !tick_lookupConn.
    assert (Hc : forall e', lookupConn (mgr constructed) e'
                 = if decide ("0.0.0.1" = e') then Some 1%positive else None).
    { intros e'. unfold lookupConn.
      change (connSet (mgr constructed))
        with (<["0.0.0.1" := Some 1%positive]> (∅ : gmap string ptr)).
      case_decide as He'; [subst; by rewrite lookup_insert_eq|].
      by rewrite lookup_insert_ne, lookup_empty. }
    rewrite !Hc. simpl.
    repeat (case_decide; simpl); subst; split;
      (by intros [? ?]) || (by intros [?|?]) || eauto.
  - vm_compute. reflexivity.
  - apply reachable_iter. repeat apply reachable_call. by apply reachable_fresh.
  - by rewrite three_live_overflowed_eq.
  - rewrite three_live_overflowed_eq. vm_compute. reflexivity.
Qed.

(** The registry of [TestClientConnManager]: two endpoints, no connection. *)
Definition two_dead : world :=
  after (CallResetConn "0.0.0.2" None)
    (after (CallResetConn "0.0.0.1" None) initial_world).

Definition two_dead_overflowed : world :=
  Nat.iter probes_to_overflow (after CallRoundRobin) two_dead.

Lemma two_dead_overflowed_eq :
  two_dead_overflowed = set_cursor Int32.max_int two_dead.
Proof. apply overflow_reached; [vm_compute; discriminate | reflexivity]. Qed.

(** C8 (the code departs from it): with no live connection both selections
    are to fail with the error value.  [FirstAvailableConn] does; but once
    the cursor stands at the largest [int32], which a fresh cursor reaches
    after [2^31] probes, [RoundRobinConn] on two endpoints without connection
    reads the first and then panics on a negative index. *)
Theorem RoundRobinConn_panics_after_overflow :
  reachable two_dead_overflowed /\
  (forall e, lookupConn (mgr two_dead_overflowed) e = None) /\
  eval FirstAvailableConn two_dead_overflowed
  = Ret (None, Some err_no_available_connection) /\
  forall fuel,
    RoundRobinConn_fuel (S (S fuel)) two_dead_overflowed
    = Some (Panic "index out of range",
            set_cursor (Int32.min_int + 1) two_dead_overflowed).
Proof.
  split; [|split; [|split]].
  - apply reachable_iter. repeat apply reachable_call. by apply reachable_fresh.
  - intros e. rewrite two_dead_overflowed_eq.
    change (lookupConn (mgr (set_cursor Int32.max_int two_dead)) e)
      with (lookupConn (mgr two_dead) e).
    unfold two_dead, after. rewrite !lookupConn_ResetConn.
    by repeat case_decide.
  - rewrite two_dead_overflowed_eq. vm_compute. reflexivity.
  - intros fuel. rewrite two_dead_overflowed_eq. vm_compute. reflexivity.
Qed.

(** ** Selection on a duplicate-free sequence, away from overflow *)

Lemma firstLive_none cs eps :
  (forall e, default None (cs !! e) = None) -> firstLive cs eps = None.
Proof.
  intros Hdead. induction eps as [|e eps IH]; simpl; [done|]. by rewrite Hdead.
Qed.



(** X2: on a non-empty, duplicate-free sequence, from a cursor at least [N]
    short of the largest [int32], [N] calls of [roundRobin] return the
    entries of the sequence in cyclic order, starting after the cursor: each
    endpoint exactly once. *)
Theorem roundRobin_n_each_once (w : world) :
  NoDup (endpoints (mgr w)) ->
  0 < Z.of_nat (length (endpoints (mgr w))) < 2 ^ 31 ->
  -1 <= lastRoundRobinIdx (mgr w) ->
  lastRoundRobinIdx (mgr w) + Z.of_nat (length (endpoints (mgr w))) <= Int32.max_int ->
  let start := Z.to_nat ((lastRoundRobinIdx (mgr w) + 1)
                         mod Z.of_nat (length (endpoints (mgr w)))) in
  roundRobin_n (length (endpoints (mgr w))) w
  = probed w <$> rotate start (endpoints (mgr w)) /\
  NoDup (rotate start (endpoints (mgr w))) /\
  rotate start (endpoints (mgr w)) ≡ₚ endpoints (mgr w).
Proof.
  intros Hnd Hlen Hcur Hroom start. split; [|split].
  - by apply roundRobin_n_rotate.
  - by rewrite rotate_Permutation.
  - apply rotate_Permutation.
Qed.

Lemma roundRobin_n_each_once_witness :
  roundRobin_n 3 (set_cursor 3 three_live)
  = [Ret (Some 2%positive, "0.0.0.2"); Ret (Some 3%positive, "0.0.0.3");
     Ret (Some 1%positive, "0.0.0.1")].
Proof.
  assert (Hnd : NoDup (endpoints (mgr (set_cursor 3 three_live)))).
  { apply (bool_decide_unpack _). vm_compute. exact I. }
  assert (Hlen : 0 < Z.of_nat (length (endpoints (mgr (set_cursor 3 three_live)))) < 2 ^ 31).
  { vm_compute. split; reflexivity. }
  assert (Hcur : -1 <= lastRoundRobinIdx (mgr (set_cursor 3 three_live))).
  { vm_compute. discriminate. }
  assert (Hroom : lastRoundRobinIdx (mgr (set_cursor 3 three_live))
                  + Z.of_nat (length (endpoints (mgr (set_cursor 3 three_live))))
                  <= Int32.max_int).
  { vm_compute. discriminate. }
  destruct (roundRobin_n_each_once (set_cursor 3 three_live) Hnd Hlen Hcur Hroom)
    as (Hrot & _ & _).
  exact Hrot.
Defined.



(** ** Termination of the scan in every state *)





Section termination.

Variable w : world.

Local Abbreviation eps := (endpoints (mgr w)).
Local Abbreviation N := (Z.of_nat (length (endpoints (mgr w)))).

Hypothesis Hlen : 0 < N < 2 ^ 31.









End termination.



(** * The rest of the package *)

(** [New]: the exported constructor hands its arguments to [newHAClient]. *)
Definition New (eps : list string) (readinessProbeRPC : option ReadinessProbeRPC)
    (opts : list haClientOption) (sleeps : list schedule) : M (option goerror) :=
  newHAClient eps readinessProbeRPC opts sleeps.

(** [logPrefix] *)
Definition logPrefix : string := "grpc-haclient:".

(** ** One registration, in any state *)

(** The fields of the client other than its registry. *)
Definition same_config (w w' : world) : Prop :=
  once (client w') = once (client w) /\
  ctx_done (client w') = ctx_done (client w) /\
  dialTimeout (client w') = dialTimeout (client w) /\
  hc_endpoints (client w') = hc_endpoints (client w).

Lemma same_config_refl w : same_config w w.
Proof. by repeat split. Qed.

Lemma same_config_trans w1 w2 w3 :
  same_config w1 w2 -> same_config w2 w3 -> same_config w1 w3.
Proof.
  intros (H1 & H2 & H3 & H4) (K1 & K2 & K3 & K4).
  repeat split; congruence.
Qed.

Lemma ResetConn_config endpoint cc w :
  same_config w (exec (ResetConn endpoint cc) w).
Proof. unfold exec. rewrite ResetConn_spec. by repeat split. Qed.

Lemma ResetConn_endpoints endpoint cc w :
  endpoints (mgr (exec (ResetConn endpoint cc) w))
  = sort_Strings (endpoints (mgr w) ++ [endpoint]).
Proof. unfold exec. by rewrite ResetConn_spec. Qed.

Lemma ResetConn_cursor endpoint cc w :
  lastRoundRobinIdx (mgr (exec (ResetConn endpoint cc) w)) = lastRoundRobinIdx (mgr w).
Proof. unfold exec. by rewrite ResetConn_spec. Qed.

(** X5: in any state, [ResetConn(endpoint, cc)] makes [GetConn(endpoint)]
    return [cc] and leaves what [GetConn] returns for every other endpoint;
    it calls [Close()] on the connection it replaces, if there was one, and
    on nothing else, before the store; it does not move the round-robin
    cursor, allocate, or touch the other fields of the client. *)
Theorem ResetConn_then_GetConn (w : world) (endpoint : string) (cc : ptr) (e : string) :
  let w' := exec (ResetConn endpoint cc) w in
  ResetConn endpoint cc w = (Ret tt, w') /\
  GetConn e w' = (Ret (if decide (endpoint = e) then cc
                       else lookupConn (mgr w) e), w') /\
  trace w' = trace w ++ closes_of (lookupConn (mgr w) endpoint) ++ [EvStore endpoint cc] /\
  lastRoundRobinIdx (mgr w') = lastRoundRobinIdx (mgr w) /\
  next_conn w' = next_conn w /\
  same_config w w'.
Proof.
  intros w'. unfold w'. split; [|split; [|split; [|split; [|split]]]].
  - unfold exec. by rewrite ResetConn_spec.
  - by rewrite GetConn_spec, lookupConn_ResetConn.
  - apply ResetConn_trace.
  - apply ResetConn_cursor.
  - apply ResetConn_next_conn.
  - apply ResetConn_config.
Qed.

(** ** The endpoint sequence in reachable states *)

Lemma sort_Strings_Permutation l : sort_Strings l ≡ₚ l.
Proof. apply merge_sort_Permutation. Qed.

(** A call leaves the sequence alone or adds one entry and sorts. *)
Lemma endpoints_after (k : call) w :
  endpoints (mgr (after k w)) = endpoints (mgr w) \/
  exists e, endpoints (mgr (after k w)) = sort_Strings (endpoints (mgr w) ++ [e]).
Proof.
  destruct k as [e cc|e| | | | |e o]; simpl.
  - right. exists e. apply ResetConn_endpoints.
  - by left.
  - left. unfold exec. by rewrite FirstAvailableConn_spec.
  - left. destruct (decide (endpoints (mgr w) = [])) as [He|He].
    + unfold exec. by rewrite roundRobin_empty.
    + unfold exec. by rewrite roundRobin_world.
  - left. unfold exec. by rewrite CloseAll_spec.
  - left. unfold exec. rewrite Close_spec. by destruct (once (client w)).
  - unfold exec. rewrite tick_spec; simpl. unfold tick_result.
    destruct (lookupConn (mgr w) e) as [c|].
    + destruct (probe_ok o); [by left|]. right. exists e.
      by rewrite ResetConn_endpoints.
    + destruct (dial_ok o); [|by left].
      destruct (probe_ok o); [|by left]. right. exists e.
      by rewrite ResetConn_endpoints.
Qed.

(** X6: in every state the registry reaches, the endpoint sequence is sorted
    in ascending byte order and holds every endpoint the map has a binding
    for; a registration makes it a rearrangement of the old sequence with the
    endpoint added, and no call ever removes an entry from it. *)
Theorem endpoint_sequence_sorted_and_growing (w : world) :
  reachable w ->
  StronglySorted String.le (endpoints (mgr w)) /\
  (forall e, is_Some (connSet (mgr w) !! e) -> e ∈ endpoints (mgr w)) /\
  (forall endpoint cc,
     endpoints (mgr (exec (ResetConn endpoint cc) w)) ≡ₚ endpoint :: endpoints (mgr w)) /\
  (forall k, endpoints (mgr w) ⊆+ endpoints (mgr (after k w))).
Proof.
  intros Hreach. destruct (reachable_registry_inv w Hreach) as [Hs Hd].
  split; [done|]. split; [done|]. split.
  - intros endpoint cc. rewrite ResetConn_endpoints, sort_Strings_Permutation.
    by rewrite Permutation_app_comm.
  - intros k. destruct (endpoints_after k w) as [->|[e ->]]; [done|].
    rewrite sort_Strings_Permutation. by apply submseteq_inserts_r.
Qed.

Lemma endpoint_sequence_sorted_and_growing_witness :
  let w := after (CallResetConn "b" None)
             (after (CallResetConn "a" (Some 1%positive))
                (after (CallResetConn "b" (Some 2%positive)) initial_world)) in
  StronglySorted String.le (endpoints (mgr w)) /\
  (forall e, is_Some (connSet (mgr w) !! e) -> e ∈ endpoints (mgr w)) /\
  (forall endpoint cc,
     endpoints (mgr (exec (ResetConn endpoint cc) w)) ≡ₚ endpoint :: endpoints (mgr w)) /\
  (forall k, endpoints (mgr w) ⊆+ endpoints (mgr (after k w))).
Proof.
  intros w. apply (endpoint_sequence_sorted_and_growing w).
  do 3 apply reachable_call. apply reachable_fresh. reflexivity.
Defined.

(** ** What the selections return *)

(** The three ways a probe can go. *)
Lemma roundRobin_cases w :
  (endpoints (mgr w) = [] /\ roundRobin w = (Ret (None, ""), w)) \/
  exists v,
    (exists msg, roundRobin w = (Panic msg, set_cursor v w)) \/
    (exists e, e ∈ endpoints (mgr w) /\
               roundRobin w = (Ret (lookupConn (mgr w) e, e), set_cursor v w)).
Proof.
  destruct (decide (endpoints (mgr w) = [])) as [He|He].
  { left. split; [done | by apply roundRobin_empty]. }
  right. exists (Int32.add (lastRoundRobinIdx (mgr w)) 1).
  unfold roundRobin, mbind, M_bind, bind, gets; simpl.
  destruct (decide (0 < length (endpoints (mgr w)))%nat) as [Hlen|Hlen].
  2: { destruct (endpoints (mgr w)); [done | simpl in Hlen; lia]. }
  unfold modify; simpl.
  destruct (decide (Int32.wrap32 (Z.of_nat (length (endpoints (mgr w)))) = 0));
    [left; by eexists|].
  unfold index_endpoints.
  destruct (decide (0 <= _)); [|left; by eexists].
  destruct (endpoints (mgr w) !! _) as [e|] eqn:Hl; [|left; by eexists].
  right. exists e. split; [by eapply list_elem_of_lookup_2 | done].
Qed.

Lemma RoundRobinConn_loop_sound (fuel : nat) : forall f w r w',
  RoundRobinConn_loop fuel f w = Some (r, w') ->
  (exists v, w' = set_cursor v w) /\
  match r with
  | Ret (Some c, None) =>
      exists e, e ∈ endpoints (mgr w) /\ lookupConn (mgr w) e = Some c
  | Ret (None, Some err) => err = err_no_available_connection
  | Ret _ => False
  | Panic _ => endpoints (mgr w) ≠ []
  end.
Proof.
  induction fuel as [|fuel IH]; intros f w r w' Hrun; [done|].
  rewrite RoundRobinConn_loop_S in Hrun.
  destruct (roundRobin_cases w) as [[He Hrr]|(v & [[msg Hrr]|(e & Hin & Hrr)])];
    rewrite Hrr in Hrun.
  - rewrite decide_True in Hrun by done. injection Hrun as <- <-.
    split; [|done]. exists (lastRoundRobinIdx (mgr w)). by rewrite set_cursor_id.
  - injection Hrun as <- <-. split; [by exists v|].
    intros He. apply roundRobin_empty in He. congruence.
  - destruct (decide (e = "")).
    { injection Hrun as <- <-. split; [by exists v | done]. }
    destruct (lookupConn (mgr w) e) as [c|] eqn:Hl.
    { injection Hrun as <- <-. split; [by exists v | by exists e]. }
    assert (Hrec : forall f',
      RoundRobinConn_loop fuel f' (set_cursor v w) = Some (r, w') ->
      (exists v', w' = set_cursor v' w) /\
      match r with
      | Ret (Some c, None) =>
          exists e, e ∈ endpoints (mgr w) /\ lookupConn (mgr w) e = Some c
      | Ret (None, Some err) => err = err_no_available_connection
      | Ret _ => False
      | Panic _ => endpoints (mgr w) ≠ []
      end).
    { intros f' Hf'. destruct (IH _ _ _ _ Hf') as [[v' ->] Hr].
      split; [by exists v' | exact Hr]. }
    destruct (decide (f = "")); [by eapply Hrec|].
    destruct (decide (f = e)); [|by eapply Hrec].
    injection Hrun as <- <-. split; [by exists v | done].
Qed.

(** X7: whatever the state and however long it runs, when [RoundRobinConn]
    returns a connection it returns it without error and the connection is
    the one the registry holds for an endpoint of the sequence; when it
    returns an error, the error is "no available connection found" and the
    connection is [nil]; and it changes nothing but the cursor (no event:
    no dial, no probe, no [Close()]). *)
Theorem RoundRobinConn_sound (fuel : nat) (w : world) (r : outcome result) (w' : world) :
  RoundRobinConn_fuel fuel w = Some (r, w') ->
  (exists v, w' = set_cursor v w) /\
  trace w' = trace w /\
  match r with
  | Ret (Some c, None) =>
      exists e, e ∈ endpoints (mgr w) /\ lookupConn (mgr w) e = Some c
  | Ret (None, Some err) => err = err_no_available_connection
  | Ret _ => False
  | Panic _ => endpoints (mgr w) ≠ []
  end.
Proof.
  intros Hrun. destruct (RoundRobinConn_loop_sound fuel "" w r w' Hrun) as [[v ->] Hr].
  split; [by exists v|]. split; [done | exact Hr].
Qed.

Lemma RoundRobinConn_sound_witness :
  (exists v, set_cursor 1 one_of_two_live = set_cursor v one_of_two_live) /\
  trace (set_cursor 1 one_of_two_live) = trace one_of_two_live /\
  err_no_available_connection = err_no_available_connection.
Proof.
  apply (RoundRobinConn_sound 2 one_of_two_live
           (Ret (None, Some err_no_available_connection))
           (set_cursor 1 one_of_two_live)).
  vm_compute. reflexivity.
Defined.

(** X8: in every state the registry reaches, [FirstAvailableConn] fails, with
    "no available connection found" and a [nil] connection, exactly when no
    endpoint has a live connection. *)
Theorem FirstAvailableConn_fails_iff_no_live (w : world) :
  reachable w ->
  eval FirstAvailableConn w = Ret (None, Some err_no_available_connection)
  <-> forall e, lookupConn (mgr w) e = None.
Proof.
  intros Hreach. destruct (reachable_registry_inv w Hreach) as [Hsorted Hdom].
  unfold eval. rewrite FirstAvailableConn_spec. simpl. split.
  - intros Hfail e. destruct (lookupConn (mgr w) e) as [c|] eqn:Hl; [|done].
    exfalso.
    destruct (firstLive_smallest (connSet (mgr w)) (endpoints (mgr w)) Hsorted)
      as (e0 & c0 & Hf & _).
    { exists e, c. split; [|done]. apply Hdom. unfold lookupConn in Hl.
      destruct (connSet (mgr w) !! e); [by eexists | done]. }
    by rewrite Hf in Hfail.
  - intros Hdead. by rewrite firstLive_none.
Qed.

Lemma FirstAvailableConn_fails_iff_no_live_witness :
  eval FirstAvailableConn two_dead = Ret (None, Some err_no_available_connection)
  <-> forall e, lookupConn (mgr two_dead) e = None.
Proof.
  apply (FirstAvailableConn_fails_iff_no_live two_dead).
  do 2 apply reachable_call. apply reachable_fresh. reflexivity.
Defined.

(** ** Shutdown, connection by connection *)

Lemma lookupConn_Some m e c :
  lookupConn m e = Some c <-> connSet m !! e = Some (Some c).
Proof.
  unfold lookupConn. destruct (connSet m !! e) as [[c'|]|]; simpl; split; congruence.
Qed.

Lemma close_count_closes_list c bindings :
  close_count c (closes_list bindings)
  = length (filter (fun b : string * ptr => b.2 = Some c) bindings).
Proof.
  induction bindings as [|[e [c'|]] rest IH]; [done| |].
  - change (closes_list ((e, Some c') :: rest))
      with ([EvClose c'] ++ closes_list rest).
    rewrite close_count_app, IH, filter_cons. simpl.
    unfold close_count. rewrite filter_cons, filter_nil.
    repeat case_decide; simplify_eq; done.
  - change (closes_list ((e, None) :: rest)) with (closes_list rest).
    rewrite IH, filter_cons. by rewrite decide_False.
Qed.

Lemma filter_none_length {A} (P : A -> Prop) `{forall x, Decision (P x)} (l : list A) :
  (forall x, x ∈ l -> ~ P x) -> length (filter P l) = 0%nat.
Proof.
  induction l as [|x l IH]; intros Hno; [done|].
  rewrite filter_cons, decide_False by (apply Hno; by left).
  apply IH. intros y Hy. apply Hno. by right.
Qed.

(** A value bound to one key only occurs once among the bindings. *)
Lemma one_binding_with_value (m : gmap string ptr) e c :
  m !! e = Some (Some c) ->
  (forall e', m !! e' = Some (Some c) -> e' = e) ->
  length (filter (fun b : string * ptr => b.2 = Some c) (map_to_list m)) = 1%nat.
Proof.
  intros He Huniq.
  rewrite <- (insert_delete_id m e (Some c) He).
  rewrite map_to_list_insert by apply lookup_delete_eq.
  rewrite filter_cons, decide_True by done. simpl. f_equal.
  apply filter_none_length. intros [e' p] Hin Hp. simpl in Hp. subst p.
  apply elem_of_map_to_list in Hin.
  destruct (decide (e' = e)) as [->|Hne].
  - by rewrite lookup_delete_eq in Hin.
  - rewrite lookup_delete_ne in Hin by done. by apply Hne, Huniq.
Qed.

Lemma no_binding_with_value (m : gmap string ptr) c :
  (forall e, m !! e ≠ Some (Some c)) ->
  length (filter (fun b : string * ptr => b.2 = Some c) (map_to_list m)) = 0%nat.
Proof.
  intros Hno. apply filter_none_length. intros [e p] Hin Hp. simpl in Hp. subst p.
  apply elem_of_map_to_list in Hin. by apply (Hno e).
Qed.

(** X9: the first [Close] of a running supervisor calls [Close()] exactly
    once on every connection the registry holds and on no other; it leaves
    the map, the sequence and the cursor as they are, so [GetConn] and
    [FirstAvailableConn] go on returning the connections it has closed. *)
Theorem Close_closes_each_registered_once (w : world) :
  supervised w -> once (client w) = false ->
  let w' := exec Close w in
  mgr w' = mgr w /\
  once (client w') = true /\
  eval FirstAvailableConn w' = eval FirstAvailableConn w /\
  (forall e, eval (GetConn e) w' = eval (GetConn e) w) /\
  (forall e c, lookupConn (mgr w) e = Some c ->
     close_count c (trace w') = S (close_count c (trace w))) /\
  (forall c, (forall e, lookupConn (mgr w) e ≠ Some c) ->
     close_count c (trace w') = close_count c (trace w)).
Proof.
  intros Hsup Ho w'. destruct (supervised_probe_inv w Hsup) as [_ Huniq].
  assert (Hw' : w' = set_once true
                  (set_trace (trace w ++ closes_list (map_to_list (connSet (mgr w)))) w)).
  { unfold w', exec. by rewrite Close_spec, Ho. }
  rewrite Hw'. split; [done|]. split; [done|]. split; [|split; [|split]].
  - unfold eval. by rewrite !FirstAvailableConn_spec.
  - done.
  - intros e c Hl. simpl. rewrite close_count_app, close_count_closes_list.
    rewrite (one_binding_with_value _ e c); [lia | by apply lookupConn_Some |].
    intros e' He'. apply (Huniq e' e c); [by apply lookupConn_Some | done].
  - intros c Hno. simpl. rewrite close_count_app, close_count_closes_list.
    rewrite no_binding_with_value; [lia|].
    intros e He. by apply (Hno e), lookupConn_Some.
Qed.

Lemma Close_closes_each_registered_once_witness :
  mgr (exec Close constructed) = mgr constructed /\
  once (client (exec Close constructed)) = true /\
  eval FirstAvailableConn (exec Close constructed) = eval FirstAvailableConn constructed /\
  close_count 1%positive (trace (exec Close constructed))
  = S (close_count 1%positive (trace constructed)).
Proof.
  destruct (Close_closes_each_registered_once constructed constructed_supervised eq_refl)
    as (H1 & H2 & H3 & _ & H5 & _).
  split; [exact H1|]. split; [exact H2|]. split; [exact H3|].
  apply (H5 "0.0.0.1"). vm_compute. reflexivity.
Defined.

(** X10: only the first [Close] has an effect: after one [Close], any
    number of further calls leaves the world, events included, as that first
    call left it. *)
Theorem Close_only_first_has_effect (n : nat) (w : world) :
  Nat.iter n (exec Close) (exec Close w) = exec Close w /\
  once (client (exec Close w)) = true.
Proof.
  assert (Hdone : once (client (exec Close w)) = true).
  { unfold exec. rewrite Close_spec. by destruct (once (client w)) eqn:Ho. }
  split; [|done].
  induction n as [|n IH]; [done|].
  rewrite Nat.iter_succ, IH. unfold exec at 1. by rewrite Close_spec, Hdone.
Qed.

(** ** A monitoring tick and the rest of the registry *)

(** Case analysis on the membership of an event in an explicit list. *)
Ltac event_cases H :=
  repeat (apply elem_of_cons in H as [H|H]);
  try discriminate H;
  try (apply elem_of_nil in H; destruct H).

Lemma tick_config e o w : same_config w (exec (tick e o) w).
Proof.
  unfold exec. rewrite tick_spec; simpl. unfold tick_result.
  destruct (lookupConn (mgr w) e) as [c|].
  - destruct (probe_ok o); [by repeat split|].
    eapply same_config_trans; [|apply ResetConn_config]. by repeat split.
  - destruct (dial_ok o); [|by repeat split].
    destruct (probe_ok o); [|by repeat split].
    eapply same_config_trans; [|apply ResetConn_config]. by repeat split.
Qed.

Lemma tick_cursor e o w :
  lastRoundRobinIdx (mgr (exec (tick e o) w)) = lastRoundRobinIdx (mgr w).
Proof.
  unfold exec. rewrite tick_spec; simpl. unfold tick_result.
  destruct (lookupConn (mgr w) e) as [c|].
  - destruct (probe_ok o); [done|]. by rewrite ResetConn_cursor.
  - destruct (dial_ok o); [|done].
    destruct (probe_ok o); [|done]. by rewrite ResetConn_cursor.
Qed.

(** X11: a tick of the task of [endpoint] never panics and writes under its
    own key only: what [GetConn] returns for any other endpoint, the cursor
    and the other fields of the client are as before, and the only
    connections it can close are the one registered for [endpoint] and the
    one it has just dialed. *)
Theorem tick_touches_own_endpoint_only (w : world) (endpoint : string) (o : oracle) :
  let w' := exec (tick endpoint o) w in
  tick endpoint o w = (Ret tt, w') /\
  (forall e, e ≠ endpoint -> eval (GetConn e) w' = eval (GetConn e) w) /\
  lastRoundRobinIdx (mgr w') = lastRoundRobinIdx (mgr w) /\
  same_config w w' /\
  (forall c, EvClose c ∈ drop (length (trace w)) (trace w') ->
     lookupConn (mgr w) endpoint = Some c \/
     (lookupConn (mgr w) endpoint = None /\ c = next_conn w)).
Proof.
  intros w'. unfold w'. split; [|split; [|split; [|split]]].
  - unfold exec. by rewrite tick_spec.
  - intros e He. unfold eval. rewrite !GetConn_spec. simpl.
    rewrite tick_lookupConn.
    destruct (lookupConn (mgr w) endpoint).
    + destruct (probe_ok o); [done|]. by rewrite decide_False.
    + destruct (dial_ok o && probe_ok o); [|done]. by rewrite decide_False.
  - apply tick_cursor.
  - apply tick_config.
  - intros c. rewrite tick_trace, drop_app_length.
    destruct (lookupConn (mgr w) endpoint) as [c0|].
    + destruct (probe_ok o); intros Hin; event_cases Hin.
      injection Hin as ->. by left.
    + destruct (dial_ok o); [destruct (probe_ok o)|]; intros Hin; event_cases Hin.
      injection Hin as ->. by right.
Qed.

Lemma tick_touches_own_endpoint_only_witness :
  eval (GetConn "0.0.0.1") (exec (tick "0.0.0.2" healthy) constructed)
  = eval (GetConn "0.0.0.1") constructed.
Proof.
  destruct (tick_touches_own_endpoint_only constructed "0.0.0.2" healthy)
    as (_ & Hother & _).
  apply Hother. discriminate.
Defined.

(** ** Every dialed connection is registered or closed *)

Definition accounted (w : world) : Prop :=
  forall e c, EvDial e (Some c) ∈ trace w ->
    (exists e', lookupConn (mgr w) e' = Some c) \/ EvClose c ∈ trace w.

Lemma dial_not_in_closes_of e c old : EvDial e (Some c) ∉ closes_of old.
Proof. intros Hin. destruct old; simpl in Hin; event_cases Hin. Qed.

Lemma dial_not_in_closes_list e c bindings : EvDial e (Some c) ∉ closes_list bindings.
Proof.
  induction bindings as [|[e' [c'|]] rest IH]; intros Hin.
  - by apply elem_of_nil in Hin.
  - change (closes_list ((e', Some c') :: rest))
      with (EvClose c' :: closes_list rest) in Hin.
    apply elem_of_cons in Hin as [Hin|Hin]; [discriminate | by apply IH].
  - by apply IH.
Qed.

Lemma accounted_ResetConn endpoint cc w :
  accounted w -> accounted (exec (ResetConn endpoint cc) w).
Proof.
  intros Hacc e c. rewrite ResetConn_trace, !elem_of_app.
  intros [Hin|[Hin|Hin]].
  - destruct (Hacc e c Hin) as [[e' He']|Hcl]; [|by right; left].
    destruct (decide (endpoint = e')) as [->|Hne].
    + right. right. left. rewrite He'. by left.
    + left. exists e'. rewrite lookupConn_ResetConn. by rewrite decide_False.
  - by apply dial_not_in_closes_of in Hin.
  - event_cases Hin.
Qed.

Lemma accounted_add_events evs w :
  (forall e c, EvDial e (Some c) ∉ evs) ->
  accounted w -> accounted (add_events evs w).
Proof.
  intros Hno Hacc e c. unfold add_events; simpl. rewrite !elem_of_app.
  intros [Hin|Hin]; [|by apply Hno in Hin].
  destruct (Hacc e c Hin) as [Hreg|Hcl]; [by left | by right; left].
Qed.

Lemma accounted_tick endpoint o w :
  accounted w -> accounted (exec (tick endpoint o) w).
Proof.
  intros Hacc e c. rewrite tick_trace, elem_of_app. intros [Hin|Hin].
  - (* dialed before this tick *)
    destruct (Hacc e c Hin) as [[e' He']|Hcl]; [|by right; apply elem_of_app; left].
    destruct (decide (endpoint = e')) as [->|Hne].
    + rewrite He'. destruct (probe_ok o) eqn:Hp.
      * left. exists e'. by rewrite tick_lookupConn, He', Hp.
      * right. apply elem_of_app. right. right. by left.
    + left. exists e'. rewrite tick_lookupConn.
      destruct (lookupConn (mgr w) endpoint).
      * destruct (probe_ok o); [done|]. by rewrite decide_False.
      * destruct (dial_ok o && probe_ok o); [|done]. by rewrite decide_False.
  - (* dialed by this tick *)
    destruct (lookupConn (mgr w) endpoint) as [c0|] eqn:Hl.
    { destruct (probe_ok o); event_cases Hin. }
    destruct (dial_ok o) eqn:Hd; [|event_cases Hin].
    destruct (probe_ok o) eqn:Hp; event_cases Hin; injection Hin as -> ->.
    + left. exists endpoint. rewrite tick_lookupConn, Hl, Hd, Hp. simpl.
      by rewrite decide_True.
    + right. apply elem_of_app. right. right. right. by left.
Qed.

Lemma accounted_quiet w w' bindings :
  (forall e, lookupConn (mgr w') e = lookupConn (mgr w) e) ->
  trace w' = trace w ++ closes_list bindings ->
  accounted w -> accounted w'.
Proof.
  intros Hl Ht Hacc e c. rewrite Ht, elem_of_app. intros [Hin|Hin].
  - destruct (Hacc e c Hin) as [[e' He']|Hcl]; [|by right; apply elem_of_app; left].
    left. exists e'. by rewrite Hl.
  - by apply dial_not_in_closes_list in Hin.
Qed.

Lemma accounted_after (k : call) w : accounted w -> accounted (after k w).
Proof.
  intros Hacc. destruct k as [e cc|e| | | | |e o]; simpl.
  - by apply accounted_ResetConn.
  - done.
  - unfold exec. by rewrite FirstAvailableConn_spec.
  - destruct (quiet_call CallRoundRobin w I) as (Hl & _ & bs & Ht); [done|].
    by eapply accounted_quiet.
  - unfold exec. rewrite CloseAll_spec. simpl.
    by eapply (accounted_quiet w _ (map_to_list (connSet (mgr w)))).
  - destruct (quiet_call CallClose w I) as (Hl & _ & bs & Ht); [done|].
    by eapply accounted_quiet.
  - by apply accounted_tick.
Qed.

(** X12: no connection is abandoned open.  If every connection dialed so
    far is registered or has had [Close()] called on it, the same holds after
    any further sequence of registry calls, ticks and [Close]: a dialed
    connection whose probe fails is closed, and a registered one is closed
    when it is replaced or cleared. *)
Theorem dialed_connections_accounted (ks : list call) (w : world) :
  accounted w -> accounted (run_calls ks w).
Proof.
  revert w. induction ks as [|k ks IH]; intros w Hacc; simpl; [done|].
  by apply IH, accounted_after.
Qed.

Lemma dialed_connections_accounted_witness :
  accounted (run_calls [CallTick "0.0.0.1" healthy; CallTick "0.0.0.2" unhealthy;
                        CallTick "0.0.0.1" unhealthy; CallClose]
                       initial_world).
Proof.
  apply (dialed_connections_accounted _ initial_world).
  intros e c Hin. simpl in Hin. by apply elem_of_nil in Hin.
Defined.

(** ** After [Close] *)

Lemma close_count_cons_close c t : close_count c (EvClose c :: t) = S (close_count c t).
Proof. unfold close_count. by rewrite filter_cons, decide_True. Qed.

Lemma close_count_cons_other c ev t :
  ev ≠ EvClose c -> close_count c (ev :: t) = close_count c t.
Proof. intros Hne. unfold close_count. by rewrite filter_cons, decide_False. Qed.

Lemma close_count_not_in c t : EvClose c ∉ t -> close_count c t = 0%nat.
Proof.
  intros Hnin. unfold close_count. apply filter_none_length.
  intros ev Hin ->. by apply Hnin.
Qed.

Lemma Close_first w :
  once (client w) = false ->
  exec Close w
  = set_once true (add_events (closes_list (map_to_list (connSet (mgr w)))) w).
Proof. intros Ho. unfold exec. by rewrite Close_spec, Ho. Qed.

(** X13: [Close] does not end the supervision.  When a running supervisor
    holding connection [c] for an endpoint is closed, the task of that
    endpoint still ticks: a failing probe then calls [Close()] on [c] a second
    time and clears the entry, and a later successful dial registers a new
    connection, which no further [Close] will close, since every later
    [Close] does nothing. *)
Theorem Close_does_not_stop_redial (w : world) (endpoint : string) (c : ClientConn) :
  supervised w -> once (client w) = false ->
  lookupConn (mgr w) endpoint = Some c ->
  let w1 := exec Close w in
  let w2 := exec (tick endpoint unhealthy) w1 in
  let w3 := exec (tick endpoint healthy) w2 in
  close_count c (trace w2) = S (S (close_count c (trace w))) /\
  lookupConn (mgr w3) endpoint = Some (next_conn w) /\
  close_count (next_conn w) (trace w3) = close_count (next_conn w) (trace w) /\
  exec Close w3 = w3.
Proof.
  intros Hsup Ho Hl w1 w2 w3.
  destruct (supervised_probe_inv w Hsup) as [Hreg Huniq].
  assert (Hlt : (c < next_conn w)%positive) by (by destruct (Hreg _ _ Hl)).
  assert (Hw1 : w1 = set_once true
                  (add_events (closes_list (map_to_list (connSet (mgr w)))) w))
    by (by apply Close_first).
  assert (Hl1 : lookupConn (mgr w1) endpoint = Some c) by (by rewrite Hw1).
  assert (Hn1 : next_conn w1 = next_conn w) by (by rewrite Hw1).
  assert (Ht1 : trace w1 = trace w ++ closes_list (map_to_list (connSet (mgr w))))
    by (by rewrite Hw1).
  assert (Ht2 : trace w2 = trace w1 ++ [EvProbe c false; EvClose c; EvStore endpoint None]).
  { unfold w2. by rewrite tick_trace, Hl1. }
  assert (Hl2 : lookupConn (mgr w2) endpoint = None).
  { unfold w2. rewrite tick_lookupConn, Hl1. simpl. by rewrite decide_True. }
  assert (Hn2 : next_conn w2 = next_conn w).
  { unfold w2. by rewrite tick_next_conn, Hl1. }
  assert (Ht3 : trace w3 = trace w2 ++ [EvDial endpoint (Some (next_conn w));
                                        EvProbe (next_conn w) true;
                                        EvStore endpoint (Some (next_conn w))]).
  { unfold w3. by rewrite tick_trace, Hl2, Hn2. }
  assert (Hc1 : forall p, close_count p (trace w1)
                = (close_count p (trace w)
                   + length (filter (fun b : string * ptr => b.2 = Some p)
                                    (map_to_list (connSet (mgr w)))))%nat).
  { intros p. by rewrite Ht1, close_count_app, close_count_closes_list. }
  split; [|split; [|split]].
  - rewrite Ht2, close_count_app, Hc1.
    rewrite (one_binding_with_value _ endpoint c).
    + rewrite close_count_cons_other, close_count_cons_close, close_count_cons_other
        by done.
      change (close_count c []) with 0%nat. lia.
    + by apply lookupConn_Some.
    + intros e' He'. apply (Huniq e' endpoint c); [by apply lookupConn_Some | done].
  - unfold w3. rewrite tick_lookupConn, Hl2, Hn2. simpl. by rewrite decide_True.
  - rewrite Ht3, close_count_app, Ht2, close_count_app, Hc1.
    rewrite no_binding_with_value.
    + rewrite (close_count_not_in _ [EvProbe c false; EvClose c; EvStore endpoint None]).
      2: { intros Hin. event_cases Hin. injection Hin as Hin. lia. }
      rewrite (close_count_not_in _ [EvDial _ _; _; _]); [lia|].
      intros Hin. event_cases Hin.
    + intros e' He'. apply lookupConn_Some in He'.
      destruct (Hreg _ _ He'). lia.
  - assert (Hdone : once (client w3) = true).
    { unfold w3. rewrite (proj1 (tick_config endpoint healthy w2)).
      unfold w2. rewrite (proj1 (tick_config endpoint unhealthy w1)).
      by rewrite Hw1. }
    unfold exec. by rewrite Close_spec, Hdone.
Qed.

Lemma Close_does_not_stop_redial_witness :
  let w1 := exec Close constructed in
  let w2 := exec (tick "0.0.0.1" unhealthy) w1 in
  let w3 := exec (tick "0.0.0.1" healthy) w2 in
  close_count 1%positive (trace w2) = S (S (close_count 1%positive (trace constructed))) /\
  lookupConn (mgr w3) "0.0.0.1" = Some (next_conn constructed) /\
  close_count (next_conn constructed) (trace w3)
  = close_count (next_conn constructed) (trace constructed) /\
  exec Close w3 = w3.
Proof.
  apply (Close_does_not_stop_redial constructed "0.0.0.1" 1%positive).
  - apply constructed_supervised.
  - reflexivity.
  - vm_compute. reflexivity.
Defined.

(** ** Construction with a valid configuration *)

Lemma supervised_reachable w : supervised w -> reachable w.
Proof.
  induction 1 as [w Hw|w k _ _ IH]; [by apply reachable_fresh | by apply reachable_call].
Qed.

Lemma firstLive_Some cs eps c :
  firstLive cs eps = Some c -> exists e, e ∈ eps /\ default None (cs !! e) = Some c.
Proof.
  induction eps as [|e eps IH]; simpl; [done|].
  destruct (default None (cs !! e)) as [c'|] eqn:He.
  - intros [= ->]. exists e. split; [by left | done].
  - intros Hf. destruct (IH Hf) as (e' & Hin & He'). exists e'. split; [by right | done].
Qed.

Lemma firstLive_None_dead cs eps e :
  firstLive cs eps = None -> e ∈ eps -> default None (cs !! e) = None.
Proof.
  induction eps as [|x eps IH]; simpl; intros Hf Hin; [by apply elem_of_nil in Hin|].
  destruct (default None (cs !! x)) as [c'|] eqn:Hx; [done|].
  apply elem_of_cons in Hin as [->|Hin]; [done | by apply IH].
Qed.

(** The options the package exports are dial timeouts; applied in order,
    the last one stands. *)
Lemma apply_timeouts (c : haclient) (ts : list Z) :
  foldl (fun c opt => opt c) c (WithDialTimeout <$> ts)
  = mkHAClient (once c) (ctx_done c) (default (dialTimeout c) (last ts))
               (hc_endpoints c) (availableConnManager c).
Proof.
  induction ts as [|t ts IH] using rev_ind; [by destruct c|].
  rewrite fmap_app, foldl_app, IH, last_snoc. reflexivity.
Qed.

Lemma tasks_started_spawned (t : list event) (eps : list string) :
  omap (fun ev => match ev with EvGo e => Some e | _ => None end) (t ++ map EvGo eps)
  = omap (fun ev => match ev with EvGo e => Some e | _ => None end) t ++ eps.
Proof.
  rewrite omap_app. f_equal.
  induction eps as [|e eps IH]; [done|].
  change (map EvGo (e :: eps)) with ([EvGo e] ++ map EvGo eps).
  by rewrite omap_app, IH.
Qed.

Lemma tick_tasks_started e o w :
  tasks_started (exec (tick e o) w) = tasks_started w.
Proof.
  unfold tasks_started. rewrite tick_trace, omap_app.
  destruct (lookupConn (mgr w) e); [destruct (probe_ok o)|
    destruct (dial_ok o); [destruct (probe_ok o)|]]; simpl; by rewrite app_nil_r.
Qed.

(** What holds from the start of the goroutines to the end of the polling. *)
Definition startup_inv (w0 w : world) : Prop :=
  same_config w0 w /\ tasks_started w = tasks_started w0 /\ supervised w.

Lemma startup_inv_tick e o w0 w :
  startup_inv w0 w -> startup_inv w0 (exec (tick e o) w).
Proof.
  intros (Hc & Ht & Hs). split; [|split].
  - eapply same_config_trans; [done | apply tick_config].
  - by rewrite tick_tasks_started.
  - by apply (supervised_call w (CallTick e o)).
Qed.

Lemma runTicks_spec (s : schedule) : forall w0 w,
  startup_inv w0 w ->
  exists w', runTicks s w = (Ret tt, w') /\ startup_inv w0 w'.
Proof.
  induction s as [|[e o] s IH]; intros w0 w Hinv; simpl.
  - by exists w.
  - assert (Heq : exec (tick e o) w = tick_result e o w)
      by (unfold exec; by rewrite tick_spec).
    unfold mbind, M_bind, bind. rewrite tick_spec.
    apply IH. rewrite <- Heq. by apply startup_inv_tick.
Qed.

Lemma pollStartup_spec (n : nat) : forall sleeps w0 w,
  startup_inv w0 w ->
  exists b w',
    pollStartup n sleeps w = (Ret b, w') /\ startup_inv w0 w' /\
    (b = true -> firstLive (connSet (mgr w')) (endpoints (mgr w')) ≠ None) /\
    (b = false ->
       (n = 0%nat /\ w' = w) \/
       firstLive (connSet (mgr w')) (endpoints (mgr w')) = None).
Proof.
  induction n as [|n IH]; intros sleeps w0 w Hinv; simpl.
  - exists false, w. split; [done|]. split; [done|]. split; [done|]. by left.
  - unfold mbind, M_bind, bind.
    destruct (runTicks_spec (hd [] sleeps) w0 w Hinv) as (w1 & -> & Hinv1).
    rewrite FirstAvailableConn_spec.
    destruct (firstLive (connSet (mgr w1)) (endpoints (mgr w1))) as [c|] eqn:Hf.
    + exists true, w1. split; [done|]. split; [done|]. split; [|done].
      intros _. by rewrite Hf.
    + destruct (IH (tl sleeps) w0 w1 Hinv1) as (b & w' & Hrun & Hinv' & Ht & Hfalse).
      exists b, w'. split; [done|]. split; [done|]. split; [done|].
      intros Hb. right. destruct (Hfalse Hb) as [[_ ->]|Hn]; done.
Qed.

(** The world in which the polling of [newHAClient] starts. *)
Definition started (eps : list string) (ts : list Z) (w : world) : world :=
  mkWorld (mkHAClient false false (default (5 * second) (last ts)) eps
                      newClientConnManager)
          (next_conn w) (trace w ++ map EvGo eps).

Lemma newHAClient_unfold eps p ts sleeps w :
  eps ≠ [] ->
  newHAClient eps (Some p) (WithDialTimeout <$> ts) sleeps w
  = match pollStartup 30 sleeps (started eps ts w) with
    | (Ret true, w') => (Ret None, w')
    | (Ret false, w') =>
        (Ret (Some ("no available endpoints " +:+ joinEndpoints eps)), exec Close w')
    | (Panic msg, w') => (Panic msg, w')
    end.
Proof.
  intros Hne. unfold newHAClient. generalize 30%nat. intros n.
  destruct (decide (length eps = 0)%nat) as [Hz|_].
  { destruct eps; [done | discriminate]. }
  unfold keepalive, mbind, M_bind, bind, modify, gets. simpl.
  rewrite apply_timeouts. simpl. rewrite spawnAll_spec. simpl.
  unfold started, set_trace. simpl.
  destruct (pollStartup n sleeps _) as [[[]|msg] w']; try done.
  unfold exec. rewrite Close_spec. by destruct (once (client w')).
Qed.

Lemma closes_list_dead (cs : gmap string ptr) :
  (forall e, default None (cs !! e) = None) -> closes_list (map_to_list cs) = [].
Proof.
  intros Hdead. unfold closes_list.
  assert (Hall : forall b, b ∈ map_to_list cs -> b.2 = None).
  { intros [e v] Hin. apply elem_of_map_to_list in Hin.
    pose proof (Hdead e) as He. unfold ptr in *. by rewrite Hin in He. }
  induction (map_to_list cs) as [|[e v] l IH]; [done|].
  assert (Hv : v = None) by (apply (Hall (e, v)); by left). subst v.
  simpl. apply IH. intros b' Hb'. apply Hall. by right.
Qed.

(** Everything [newHAClient] can do on a valid configuration. *)
Lemma newHAClient_outcome eps p ts sleeps w :
  eps ≠ [] ->
  exists r w',
    newHAClient eps (Some p) (WithDialTimeout <$> ts) sleeps w = (Ret r, w') /\
    supervised w' /\
    hc_endpoints (client w') = eps /\
    dialTimeout (client w') = default (5 * second) (last ts) /\
    ctx_done (client w') = false /\
    tasks_started w' = tasks_started w ++ eps /\
    ((r = None /\ once (client w') = false /\
      exists e c, FirstAvailableConn w' = (Ret (Some c, None), w') /\
                  lookupConn (mgr w') e = Some c) \/
     (r = Some ("no available endpoints " +:+ joinEndpoints eps) /\
      once (client w') = true /\
      forall e, lookupConn (mgr w') e = None)).
Proof.
  intros Hne. rewrite newHAClient_unfold by done.
  assert (Hinv0 : startup_inv (started eps ts w) (started eps ts w)).
  { split; [apply same_config_refl|]. split; [done|]. by apply supervised_fresh. }
  destruct (pollStartup_spec 30 sleeps _ _ Hinv0)
    as (b & w' & -> & ((Ho & Hc & Hd & He) & Ht & Hs) & Htrue & Hfalse).
  assert (Htasks : tasks_started w' = tasks_started w ++ eps).
  { rewrite Ht. unfold tasks_started, started. simpl. apply tasks_started_spawned. }
  destruct b.
  - exists None, w'. repeat split; try done. left. split; [done|]. split; [done|].
    destruct (firstLive (connSet (mgr w')) (endpoints (mgr w'))) as [c|] eqn:Hf;
      [|by destruct Htrue].
    destruct (firstLive_Some _ _ _ Hf) as (e & _ & Hl).
    exists e, c. by rewrite FirstAvailableConn_spec, Hf.
  - destruct (Hfalse eq_refl) as [[Hn _]|Hf]; [discriminate|].
    assert (Hdead : forall e, lookupConn (mgr w') e = None).
    { intros e. unfold lookupConn.
      destruct (connSet (mgr w') !! e) as [v|] eqn:Hv; [|done].
      apply (firstLive_None_dead _ _ e) in Hf; [by rewrite Hv in Hf|].
      apply (reachable_registry_inv w' (supervised_reachable w' Hs)). by eexists. }
    exists (Some ("no available endpoints " +:+ joinEndpoints eps)), (exec Close w').
    rewrite Close_first by done. rewrite closes_list_dead by apply Hdead.
    split; [done|]. split.
    { rewrite <- (closes_list_dead (connSet (mgr w'))) by apply Hdead.
      rewrite <- Close_first by done. by apply (supervised_call w' CallClose). }
    repeat split; try done.
    + unfold tasks_started in *. simpl. by rewrite app_nil_r.
    + right. by repeat split.
Qed.

(** X14: when [newHAClient], given at least one endpoint, a probe and dial
    timeout options, returns without error, the client it returns is running
    ([Close] has not been called, the context is live, one task was started
    per endpoint, in order) and [FirstAvailableConn] on it succeeds at once,
    with the connection the registry holds for some endpoint. *)
Theorem newHAClient_success (eps : list string) (p : ReadinessProbeRPC) (ts : list Z)
    (sleeps : list schedule) (w w' : world) :
  eps ≠ [] ->
  newHAClient eps (Some p) (WithDialTimeout <$> ts) sleeps w = (Ret None, w') ->
  supervised w' /\
  once (client w') = false /\
  ctx_done (client w') = false /\
  hc_endpoints (client w') = eps /\
  tasks_started w' = tasks_started w ++ eps /\
  exists e c, FirstAvailableConn w' = (Ret (Some c, None), w') /\
              lookupConn (mgr w') e = Some c.
Proof.
  intros Hne Hrun.
  destruct (newHAClient_outcome eps p ts sleeps w Hne)
    as (r & w1 & Hrun1 & Hs & He & _ & Hc & Ht & Hcase).
  rewrite Hrun in Hrun1. injection Hrun1 as <- <-.
  destruct Hcase as [(_ & Ho & Hfirst)|(Hr & _)]; [|discriminate].
  done.
Qed.

Lemma newHAClient_success_witness :
  supervised constructed /\
  once (client constructed) = false /\
  ctx_done (client constructed) = false /\
  hc_endpoints (client constructed) = ["0.0.0.1"; "0.0.0.2"] /\
  tasks_started constructed = tasks_started initial_world ++ ["0.0.0.1"; "0.0.0.2"] /\
  exists e c, FirstAvailableConn constructed = (Ret (Some c, None), constructed) /\
              lookupConn (mgr constructed) e = Some c.
Proof.
  apply (newHAClient_success ["0.0.0.1"; "0.0.0.2"] (probeRPC 0) []
           [[("0.0.0.1", healthy)]] initial_world constructed).
  - discriminate.
  - vm_compute. reflexivity.
Defined.




(** X16: [newHAClient] with a valid configuration never panics, and the
    dial timeout of the client is that of the last [WithDialTimeout] option,
    five seconds when there is none, whether or not construction succeeds. *)
Theorem newHAClient_dial_timeout (eps : list string) (p : ReadinessProbeRPC)
    (ts : list Z) (sleeps : list schedule) (w : world) :
  eps ≠ [] ->
  let run := newHAClient eps (Some p) (WithDialTimeout <$> ts) sleeps in
  (exists r, eval run w = Ret r) /\
  dialTimeout (client (exec run w)) = default (5 * second) (last ts).
Proof.
  intros Hne run.
  destruct (newHAClient_outcome eps p ts sleeps w Hne)
    as (r & w1 & Hrun1 & _ & _ & Hd & _).
  unfold run, eval, exec. rewrite Hrun1. simpl. split; [by exists r | done].
Qed.

Lemma newHAClient_dial_timeout_witness :
  let run := newHAClient ["a"] (Some (probeRPC 0))
               (WithDialTimeout <$> [2 * second; 7 * second]) [[("a", healthy)]] in
  (exists r, eval run initial_world = Ret r) /\
  dialTimeout (client (exec run initial_world))
  = default (5 * second) (last [2 * second; 7 * second]).
Proof.
  apply (newHAClient_dial_timeout ["a"] (probeRPC 0) [2 * second; 7 * second]
           [[("a", healthy)]] initial_world).
  discriminate.
Defined.

(** ** Construction when every dial fails *)

Definition dial_fails (s : string * oracle) : Prop := dial_ok s.2 = false.

(** The events of ticks that find no connection and cannot dial. *)
Definition failed_dials (s : schedule) : list event :=
  (fun x : string * oracle => EvDial x.1 None) <$> s.

Lemma add_events_add_events evs1 evs2 w :
  add_events evs2 (add_events evs1 w) = add_events (evs1 ++ evs2) w.
Proof. unfold add_events, set_trace; simpl. by rewrite app_assoc. Qed.

Lemma add_events_nil w : add_events [] w = w.
Proof. unfold add_events, set_trace. rewrite app_nil_r. by destruct w. Qed.

Lemma runTicks_dial_fails (s : schedule) : forall w,
  Forall dial_fails s -> (forall e, lookupConn (mgr w) e = None) ->
  runTicks s w = (Ret tt, add_events (failed_dials s) w).
Proof.
  induction s as [|[e o] s IH]; intros w Hs Hdead; simpl.
  - by rewrite add_events_nil.
  - apply Forall_cons in Hs as [Ho Hs]. unfold dial_fails in Ho. simpl in Ho.
    unfold mbind, M_bind, bind. rewrite tick_spec. unfold tick_result.
    rewrite Hdead, Ho. rewrite IH by done.
    by rewrite add_events_add_events.
Qed.

Lemma pollStartup_dial_fails (n : nat) : forall sleeps w,
  Forall (Forall dial_fails) sleeps -> (forall e, lookupConn (mgr w) e = None) ->
  pollStartup n sleeps w
  = (Ret false, add_events (failed_dials (concat (take n sleeps))) w).
Proof.
  induction n as [|n IH]; intros sleeps w Hs Hdead.
  - change (pollStartup 0 sleeps w) with (Ret false, w).
    rewrite take_0. by rewrite add_events_nil.
  - assert (Hpoll : forall s rest,
      Forall dial_fails s -> Forall (Forall dial_fails) rest ->
      (runTicks s ;; r ← FirstAvailableConn;
       match r : result with
       | (_, None) => mret true
       | (_, Some _) => pollStartup n rest
       end) w
      = (Ret false, add_events (failed_dials (s ++ concat (take n rest))) w)).
    { intros s rest Hs1 Hrest. unfold mbind, M_bind, bind.
      rewrite runTicks_dial_fails by done.
      rewrite FirstAvailableConn_spec, firstLive_none by apply Hdead.
      rewrite IH by done. unfold failed_dials.
      by rewrite add_events_add_events, fmap_app. }
    destruct sleeps as [|s rest].
    + change (pollStartup (S n) [] w) with
        ((runTicks [] ;; r ← FirstAvailableConn;
          match r : result with
          | (_, None) => mret true
          | (_, Some _) => pollStartup n []
          end) w).
      rewrite Hpoll by done. by rewrite !take_nil.
    + apply Forall_cons in Hs as [Hs1 Hrest].
      change (pollStartup (S n) (s :: rest) w) with
        ((runTicks s ;; r ← FirstAvailableConn;
          match r : result with
          | (_, None) => mret true
          | (_, Some _) => pollStartup n rest
          end) w).
      by rewrite Hpoll.
Qed.

(** X17: when every dial attempted during startup fails, [newHAClient]
    gives up after thirty polls with the error "no available endpoints ...":
    the registry it leaves is empty, no connection was created, and its
    events are the start of one task per endpoint followed by the failed
    dials of the first thirty sleeps: no probe and no [Close()] call. *)
Theorem newHAClient_all_dials_fail (eps : list string) (p : ReadinessProbeRPC)
    (ts : list Z) (sleeps : list schedule) (w : world) :
  eps ≠ [] -> Forall (Forall dial_fails) sleeps ->
  let run := newHAClient eps (Some p) (WithDialTimeout <$> ts) sleeps in
  eval run w = Ret (Some ("no available endpoints " +:+ joinEndpoints eps)) /\
  mgr (exec run w) = newClientConnManager /\
  next_conn (exec run w) = next_conn w /\
  trace (exec run w)
  = trace w ++ map EvGo eps ++ failed_dials (concat (take 30 sleeps)).
Proof.
  intros Hne Hs run. unfold run, eval, exec.
  rewrite newHAClient_unfold by done.
  rewrite pollStartup_dial_fails; [|done|].
  2: { intros e. unfold lookupConn, started, mgr. simpl. by rewrite lookup_empty. }
  simpl. split; [done|].
  rewrite Close_first by done. simpl.
  rewrite map_to_list_empty. simpl. rewrite app_nil_r.
  split; [done|]. split; [done|]. by rewrite <- app_assoc.
Qed.

Lemma newHAClient_all_dials_fail_witness :
  let sleeps := [[("a", mkOracle false true)]; [("b", mkOracle false false)]] in
  let run := newHAClient ["a"; "b"] (Some (probeRPC 0)) (WithDialTimeout <$> []) sleeps in
  eval run initial_world = Ret (Some ("no available endpoints " +:+ joinEndpoints ["a"; "b"])) /\
  mgr (exec run initial_world) = newClientConnManager /\
  next_conn (exec run initial_world) = next_conn initial_world /\
  trace (exec run initial_world)
  = trace initial_world ++ map EvGo ["a"; "b"] ++ failed_dials (concat (take 30 sleeps)).
Proof.
  intros sleeps.
  apply (newHAClient_all_dials_fail ["a"; "b"] (probeRPC 0) [] sleeps initial_world).
  - discriminate.
  - repeat constructor.
Defined.

(** ** A new registry *)

Lemma exec_ResetConn_then {A} endpoint cc (m : M A) w :
  exec (ResetConn endpoint cc ;; m) w = exec m (exec (ResetConn endpoint cc) w).
Proof. unfold exec, mbind, M_bind, bind. by rewrite ResetConn_spec. Qed.

Lemma registerAll_endpoints (calls : list (string * ptr)) : forall w,
  endpoints (mgr (exec (registerAll calls) w)) ≡ₚ endpoints (mgr w) ++ calls.*1 /\
  lastRoundRobinIdx (mgr (exec (registerAll calls) w)) = lastRoundRobinIdx (mgr w) /\
  (reachable w -> reachable (exec (registerAll calls) w)).
Proof.
  induction calls as [|[e cc] rest IH]; intros w.
  - simpl. rewrite app_nil_r. done.
  - change (registerAll ((e, cc) :: rest)) with (ResetConn e cc ;; registerAll rest).
    rewrite exec_ResetConn_then.
    destruct (IH (exec (ResetConn e cc) w)) as (Hp & Hc & Hr).
    split; [|split].
    + rewrite Hp, ResetConn_endpoints, sort_Strings_Permutation.
      rewrite fmap_cons. simpl. by rewrite <- app_assoc.
    + by rewrite Hc, ResetConn_cursor.
    + intros Hw. apply Hr. by apply (reachable_call w (CallResetConn e cc)).
Qed.

(** X18: a new registry starts its rotation at the smallest endpoint: after
    any non-empty sequence of registrations on a fresh registry (fewer than
    [2^31] of them), the first [roundRobin] returns the smallest registered
    endpoint, in byte-wise lexicographic order, with its current connection,
    and leaves the cursor at 0. *)
Theorem first_roundRobin_reads_smallest (calls : list (string * ptr)) :
  calls ≠ [] -> Z.of_nat (length calls) < 2 ^ 31 ->
  let w := exec (registerAll calls) initial_world in
  exists e,
    roundRobin w = (Ret (lookupConn (mgr w) e, e), set_cursor 0 w) /\
    e ∈ calls.*1 /\
    forall e', e' ∈ calls.*1 -> String.le e e'.
Proof.
  intros Hne Hlen w.
  destruct (registerAll_endpoints calls initial_world) as (Hp & Hc & Hr).
  fold w in Hp, Hc, Hr. simpl in Hp, Hc.
  assert (Hsorted : StronglySorted String.le (endpoints (mgr w))).
  { apply reachable_registry_inv, Hr. by apply reachable_fresh. }
  assert (Hl : length (endpoints (mgr w)) = length calls).
  { by rewrite Hp, length_fmap. }
  destruct (endpoints (mgr w)) as [|e rest] eqn:He.
  { destruct calls; [done | discriminate]. }
  exists e. split; [|split].
  - pose proof (roundRobin_ok w e) as Hrr. cbv zeta in Hrr.
    rewrite Hc, He in Hrr. change (Int32.add (-1) 1) with 0 in Hrr.
    apply Hrr; [simpl in *; lia | done |].
    rewrite Z.mod_0_l by (simpl; lia). done.
  - rewrite <- Hp. by left.
  - intros e' He'. rewrite <- Hp in He'.
    apply StronglySorted_inv in Hsorted as [_ Hall].
    apply elem_of_cons in He' as [->|He']; [done|].
    rewrite Forall_forall in Hall. by apply Hall.
Qed.

Lemma first_roundRobin_reads_smallest_witness :
  let calls := [("b", Some 1%positive); ("c", None); ("a", Some 2%positive)] in
  let w := exec (registerAll calls) initial_world in
  exists e,
    roundRobin w = (Ret (lookupConn (mgr w) e, e), set_cursor 0 w) /\
    e ∈ calls.*1 /\
    forall e', e' ∈ calls.*1 -> String.le e e'.
Proof.
  intros calls.
  apply (first_roundRobin_reads_smallest calls).
  - discriminate.
  - vm_compute. reflexivity.
Defined.

(** ** Selection after selection *)






(** ** Where a registered connection comes from *)

Definition dialed_for (w : world) : Prop :=
  forall e c, lookupConn (mgr w) e = Some c -> EvDial e (Some c) ∈ trace w.

Lemma dialed_for_after (k : call) w :
  supervisor_call k -> dialed_for w -> dialed_for (after k w).
Proof.
  intros Hk Hd.
  destruct (tick_or_quiet k) as [(e & o & ->)|Hnt].
  - intros e' c. simpl. rewrite tick_lookupConn, tick_trace, elem_of_app.
    destruct (lookupConn (mgr w) e) as [c0|] eqn:Hl.
    + destruct (probe_ok o).
      * intros Hl'. left. by apply Hd.
      * case_decide; [done|]. intros Hl'. left. by apply Hd.
    + destruct (dial_ok o); simpl; [|intros Hl'; left; by apply Hd].
      destruct (probe_ok o); [|intros Hl'; left; by apply Hd].
      case_decide as Hee; [|intros Hl'; left; by apply Hd].
      intros [= <-]. subst e'. right. by left.
  - destruct (quiet_call k w Hk Hnt) as (Hl & _ & bs & Ht).
    intros e c. rewrite Hl, Ht, elem_of_app. intros Hl'. left. by apply Hd.
Qed.

(** X20: in every state of a running supervisor, the connection registered
    for an endpoint was dialed to that endpoint and is registered for no
    other endpoint: a selection never hands out a connection under the wrong
    endpoint. *)
Theorem registered_connection_provenance (w : world) :
  supervised w ->
  forall e c, lookupConn (mgr w) e = Some c ->
    EvDial e (Some c) ∈ trace w /\
    forall e', lookupConn (mgr w) e' = Some c -> e' = e.
Proof.
  intros Hsup e c Hl. split.
  - revert e c Hl. fold (dialed_for w).
    induction Hsup as [w Hw|w k Hk _ IH].
    + intros e c. unfold lookupConn. rewrite Hw. simpl. by rewrite lookup_empty.
    + by apply dialed_for_after.
  - intros e' Hl'. destruct (supervised_probe_inv w Hsup) as [_ Huniq].
    by apply (Huniq e' e c).
Qed.

Lemma registered_connection_provenance_witness :
  EvDial "0.0.0.2" (Some 2%positive) ∈ trace one_of_two_live /\
  forall e', lookupConn (mgr one_of_two_live) e' = Some 2%positive -> e' = "0.0.0.2".
Proof.
  apply (registered_connection_provenance one_of_two_live).
  - repeat (apply supervised_call; [exact I|]). apply constructed_supervised.
  - vm_compute. reflexivity.
Defined.
